(** * Kinematic-chain resolution and goal translation (package motionplan)

    A shallow embedding of the motion-chain layer of the planner: the
    linearized frame system, pivot search, motion-chain construction, the
    motion-chains aggregate and the planning result promise. *)

From Stdlib Require Import Floats.PrimFloat.
From stdpp Require Import gmap strings list fin_maps sorting.

Set Warnings "-clear-no-such-hyp".

Open Scope string_scope.
Open Scope list_scope.
Open Scope nat_scope.

(** ** Basic data *)

(** Go's [float64]. The code below only stores and copies such values. *)
Abbreviation float64 := PrimFloat.float (only parsing).

(** [referenceframe.Limit]: the bounds of one degree of freedom. *)
Record Limit := mkLimit { Min : float64; Max : float64 }.

(** [referenceframe.Input]: one joint value. *)
Record Input := mkInput { Value : float64 }.

(** [referenceframe.Frame], seen through the methods this package calls:
    [Name()], [DoF()] and the dynamic capability test
    [_, ok := f.(tpspace.PTGProvider)]. A frame is an interface value that
    holds a pointer: Go's [==] on frames and maps keyed by frames go by
    the identity of the object, which [addr] carries. *)
Record Frame := mkFrame {
  addr : nat;
  Name : string;
  DoF : list Limit;
  isPTGProvider : bool
}.

(** [referenceframe.World], the name of the root frame. *)
Definition World : string := "world".

(** The errors this package returns. *)
Inductive error :=
| errMissingInput (frame : string)      (* "frame %s missing from input map" *)
| errNotEnoughValues (frame : string)   (* "not enough values in float slice for frame %s" *)
| errFrameMissing (frame : string)      (* referenceframe.NewFrameMissingError *)
| errSolveListEmpty                     (* "solveFrameList was empty" *)
| errNoPath                             (* "no path from solve frame to goal frame" *)
| errNoChains                           (* "must have at least one motion chain" *)
| errOnlyOnePTG                         (* "only one PTG frame can be planned for at a time" *)
| errMixedFrameTypes                    (* the package variable errMixedFrameTypes *)
| errExternal (msg : string).           (* any other error, by its message: one made with
                                           fmt.Errorf, or one of a collaborator passed on *)

(** [referenceframe.FrameSystemInputs]: frame name to joint values. *)
Abbreviation FrameSystemInputs := (gmap string (list Input)) (only parsing).

(** [len(frame.DoF()) == 0] *)
Definition noDoF (f : Frame) : bool := Nat.eqb (length (DoF f)) 0.

(** [f == g] on frames. *)
Definition sameFrame (f g : Frame) : bool := Nat.eqb (addr f) (addr g).

(** ** Linearized frame system *)

Module Linearized.

(** The struct keeps the frame system too; [mapToSlice] and [sliceToMap]
    read only the cached ordering. *)
Record linearizedFrameSystem := mkLFS {
  frames : list Frame;
  dof : list Limit
}.

(** The loop of [mapToSlice], with the accumulated [floatSlice]. *)
Fixpoint mapToSlice_loop (fr : list Frame) (inputs : FrameSystemInputs)
    (floatSlice : list float64) : error + list float64 :=
  match fr with
  | [] => inr floatSlice
  | frame :: rest =>
      if noDoF frame then mapToSlice_loop rest inputs floatSlice
      else match inputs !! Name frame with
           | None => inl (errMissingInput (Name frame))
           | Some input => mapToSlice_loop rest inputs (floatSlice ++ (Value <$> input))
           end
  end.

Definition mapToSlice (lfs : linearizedFrameSystem) (inputs : FrameSystemInputs)
    : error + list float64 :=
  mapToSlice_loop (frames lfs) inputs [].

(** The inner loop of [sliceToMap]: [for j := range frame.DoF()], with
    the slots [j .. n) still to fill. [frameInputs] was made with
    [make([]Input, n)] and is written by index; [i] is the read cursor. *)
Fixpoint fillInputs (todo : nat) (j : nat) (floatSlice : list float64) (i : nat)
    (frameInputs : list Input) : option (list Input * nat) :=
  match todo with
  | 0 => Some (frameInputs, i)
  | S todo' =>
      match floatSlice !! i with
      | None => None                       (* i >= len(floatSlice) *)
      | Some v => fillInputs todo' (S j) floatSlice (S i) (<[j := mkInput v]> frameInputs)
      end
  end.

Fixpoint sliceToMap_loop (fr : list Frame) (floatSlice : list float64) (i : nat)
    (inputs : FrameSystemInputs) : error + FrameSystemInputs :=
  match fr with
  | [] => inr inputs
  | frame :: rest =>
      if noDoF frame then sliceToMap_loop rest floatSlice i inputs
      else
        let n := length (DoF frame) in
        match fillInputs n 0 floatSlice i (replicate n (mkInput 0%float)) with
        | None => inl (errNotEnoughValues (Name frame))
        | Some (frameInputs, i') =>
            sliceToMap_loop rest floatSlice i' (<[Name frame := frameInputs]> inputs)
        end
  end.

Definition sliceToMap (lfs : linearizedFrameSystem) (floatSlice : list float64)
    : error + FrameSystemInputs :=
  sliceToMap_loop (frames lfs) floatSlice 0 ∅.

(** What [mapToSlice] concatenates: the values of the frames with degrees
    of freedom, in the cached order. *)
Fixpoint flattened (fr : list Frame) (x : FrameSystemInputs) : list float64 :=
  match fr with
  | [] => []
  | f :: rest =>
      if noDoF f then flattened rest x
      else (Value <$> default [] (x !! Name f)) ++ flattened rest x
  end.

(** The names that [sliceToMap] writes: frames with degrees of freedom. *)
Definition movingName (fr : list Frame) (n : string) : Prop :=
  ∃ f, f ∈ fr ∧ Name f = n ∧ noDoF f = false.

#[global] Instance movingName_dec fr n : Decision (movingName fr n).
Proof.
  refine (cast_if (decide (Exists (λ f, Name f = n ∧ noDoF f = false) fr)));
    unfold movingName; rewrite Exists_exists in *; naive_solver.
Defined.

(** The hypothesis of the round trip: every frame with degrees of freedom
    has an entry of the right length. *)
Definition covers (fr : list Frame) (x : FrameSystemInputs) : Prop :=
  ∀ f, f ∈ fr → noDoF f = false →
       ∃ v, x !! Name f = Some v ∧ length v = length (DoF f).

End Linearized.

(** ** Frame system (package referenceframe) *)

Module RefFrame.

(** Modelled from the spec: the frame system of package referenceframe
    ([FrameSystem] and its methods), which is missing from the sources.
    It is "a rooted tree of named
    frames" in which each frame has a parent; it supports lookup by name,
    ancestor traceback to the root ("frame, parent, ..., World"),
    extraction of the subgraph rooted at a frame and subgraph merge. The
    root is kept apart from the other frames. *)
Record FrameSystem := mkFS {
  fsName : string;
  world : Frame;
  frames : gmap string Frame;      (* the frames other than the root, by name *)
  parents : gmap string string     (* the name of a frame to the name of its parent *)
}.

(** Modelled from the spec: the root of a new system is a fixed frame
    named World without degrees of freedom. *)
Definition zeroWorld : Frame := mkFrame 0 World [] false.

(** Modelled from the spec: the empty frame system, only a root. *)
Definition NewEmptyFrameSystem (name : string) : FrameSystem :=
  mkFS name zeroWorld ∅ ∅.

(** Modelled from the spec: lookup by name, the method [fs.Frame(name)];
    [None] is Go's nil. *)
Definition frameByName (fs : FrameSystem) (name : string) : option Frame :=
  if decide (name = World) then Some (world fs) else frames fs !! name.

(** Modelled from the spec: the parent of a frame of the system. *)
Definition parentOf (fs : FrameSystem) (f : Frame) : option Frame :=
  parents fs !! Name f ≫= frameByName fs.

(** Modelled from the spec: the ancestor chain of [query], from the frame
    itself to the root. The walk follows parents until the root; [fuel]
    bounds the number of frames visited. *)
Fixpoint traceback (fs : FrameSystem) (fuel : nat) (query : Frame)
    : option (list Frame) :=
  match fuel with
  | 0 => None
  | S fuel' =>
      if sameFrame query (world fs) then Some [query]
      else p ← parentOf fs query; cons query <$> traceback fs fuel' p
  end.

(** A chain of a tree visits no frame twice, so it has at most one more
    frame than the system has frames besides the root. *)
Definition enoughFuel (fs : FrameSystem) : nat := S (size (frames fs)).

(** Modelled from the spec: [TracebackFrame]; it fails with the frame
    missing error when the frame is not in the system. *)
Definition TracebackFrame (fs : FrameSystem) (query : Frame) : error + list Frame :=
  match frameByName fs (Name query) with
  | None => inl (errFrameMissing (Name query))
  | Some _ =>
      match traceback fs (enoughFuel fs) query with
      | Some l => inr l
      | None => inl (errExternal "the parents of the frame do not lead to the root")
      end
  end.

(** [root] is [f] or one of its ancestors. *)
Definition below (fs : FrameSystem) (root f : Frame) : bool :=
  match traceback fs (enoughFuel fs) f with
  | Some l => existsb (sameFrame root) l
  | None => false
  end.

(** Modelled from the spec: "subgraph extraction rooted at a frame". The
    new system has [newRoot] and the frames below it, with their parents;
    [newRoot] hangs from the new root. *)
Definition FrameSystemSubset (fs : FrameSystem) (newRoot : Frame)
    : error + FrameSystem :=
  match frameByName fs (Name newRoot) with
  | None => inl (errFrameMissing (Name newRoot))
  | Some _ =>
      let sub := <[Name newRoot := newRoot]>
                   (filter (λ nf, below fs newRoot nf.2 = true) (frames fs)) in
      inr (mkFS (Name newRoot ++ "_FS")%string zeroWorld sub
                (<[Name newRoot := World]>
                   (filter (λ np, is_Some (sub !! np.1)) (parents fs))))
  end.

(** Modelled from the spec: "subgraph merge". The frames of [sys] are
    added to [fs]; those that hang from the root of [sys] hang from
    [attachTo], which has to be a frame of [fs]. *)
Definition MergeFrameSystem (fs sys : FrameSystem) (attachTo : Frame)
    : error + FrameSystem :=
  match frameByName fs (Name attachTo) with
  | None => inl (errFrameMissing (Name attachTo))
  | Some _ =>
      let reparent (p : string) :=
        if decide (p = World) then Name attachTo else p in
      inr (mkFS (fsName fs) (world fs) (frames fs ∪ frames sys)
                (parents fs ∪ (reparent <$> parents sys)))
  end.

(** The frames of a system, root first. *)
Definition allFrames (fs : FrameSystem) : list Frame :=
  world fs :: (map_to_list (frames fs)).*2.

(** A tree-structured frame system: the root is named World, every other
    frame is stored under its own name, which is not World, and the
    frames are distinct objects. That the parents lead to the root shows
    in [traceback] returning a chain. *)
Definition treeStructured (fs : FrameSystem) : Prop :=
  Name (world fs) = World ∧
  Forall (λ nf, Name nf.2 = nf.1 ∧ nf.1 ≠ World) (map_to_list (frames fs)) ∧
  NoDup (addr <$> allFrames fs).

#[global] Instance treeStructured_dec fs : Decision (treeStructured fs).
Proof. unfold treeStructured. apply _. Defined.

End RefFrame.

(** ** Errors as results *)

Definition bindE {A B} (x : error + A) (k : A → error + B) : error + B :=
  match x with
  | inl e => inl e
  | inr a => k a
  end.

Notation "'do' x <- e ; k" := (bindE e (λ x, k))
  (at level 10, x name, e at level 100, k at level 200).

(** ** Motion chains *)

Module Chain.
Import RefFrame.

(** The struct [motionChain]. *)
Record motionChain := mkChain {
  movingFS : FrameSystem;
  frames : list Frame;
  solveFrameName : string;
  goalFrameName : string;
  worldRooted : bool
}.

(** [findPivotFrame]: the names of the shorter list are cached in a set
    and the longer list is scanned from its first element. *)
Definition findPivotFrame (frameList1 frameList2 : list Frame) : error + Frame :=
  let '(shortList, longList) :=
    if decide (length frameList2 < length frameList1)
    then (frameList2, frameList1) else (frameList1, frameList2) in
  let nameSet : gset string := list_to_set (Name <$> shortList) in
  match find (λ frame, bool_decide (Name frame ∈ nameSet)) longList with
  | Some frame => inr frame
  | None => inl errNoPath
  end.

(** The loop of [uniqInPlaceSlice]: [vs] is what is left of the range
    over the slice, [s] the array that is written, [seen] the frames met
    so far and [j] the write cursor. *)
Fixpoint uniq_loop (vs s : list Frame) (seen : gset nat) (j : nat)
    : list Frame * nat :=
  match vs with
  | [] => (s, j)
  | v :: rest =>
      if bool_decide (addr v ∈ seen) then uniq_loop rest s seen j
      else uniq_loop rest (<[j := v]> s) ({[addr v]} ∪ seen) (S j)
  end.

(** The array after [uniqInPlaceSlice] ran over it. *)
Definition uniqInPlaceArray (s : list Frame) : list Frame :=
  (uniq_loop s s ∅ 0).1.

(** [uniqInPlaceSlice]: the result is the slice [s[:j]] of that array. *)
Definition uniqInPlaceSlice (s : list Frame) : list Frame :=
  let '(s', j) := uniq_loop s s ∅ 0 in take j s'.

(** The closure [movingFS] of [motionChainFromGoal]: the index runs from
    [len(frameList) - 1] down to [0] and stops at the first frame with
    degrees of freedom. *)
Definition movingFSOf (fs : FrameSystem) (frameList : list Frame)
    : error + FrameSystem :=
  match find (λ f, negb (noDoF f)) (reverse frameList) with
  | None => inr (NewEmptyFrameSystem "")
  | Some moveF => FrameSystemSubset fs moveF
  end.

(** The loops [for _, frame := range list { if frame == pivotFrame
    { break } ... }]: the frames met before the pivot. *)
Fixpoint untilPivot (pivotFrame : Frame) (l : list Frame) : list Frame :=
  match l with
  | [] => []
  | frame :: rest =>
      if sameFrame frame pivotFrame then []
      else frame :: untilPivot pivotFrame rest
  end.

(** The sum [dof += len(frame.DoF())] over a list. *)
Definition dofOf (l : list Frame) : nat := sum_list (length ∘ DoF <$> l).

(** [m1.MergeFrameSystem(m2, m1.World())] on the results of [movingFS]. *)
Definition mergeMoving (moving movingSubset2 : FrameSystem) : error + FrameSystem :=
  MergeFrameSystem moving movingSubset2 (world moving).

(** [motionChainFromGoal]. When the pivot is the root, [append] may give
    the frame span the array of [solveFrameList], and
    [uniqInPlaceSlice] then writes into it; it leaves a beginning of
    distinct frames as it was, so the solve list, a chain of distinct
    frames, is read afterwards as it was before. *)
Definition motionChainFromGoal (fs : FrameSystem) (moveFrame goalFrameName : string)
    : error + motionChain :=
  match frameByName fs goalFrameName with
  | None => inl (errFrameMissing goalFrameName)
  | Some goalFrame =>
    do goalFrameList <- TracebackFrame fs goalFrame;
    match frameByName fs moveFrame with
    | None => inl (errFrameMissing moveFrame)
    | Some solveFrame =>
      do solveFrameList <- TracebackFrame fs solveFrame;
      if decide (length solveFrameList = 0) then inl errSolveListEmpty else
      do pivotFrame <- findPivotFrame solveFrameList goalFrameList;
      if decide (Name pivotFrame = World) then
        let frames := uniqInPlaceSlice (solveFrameList ++ goalFrameList) in
        do moving <- movingFSOf fs solveFrameList;
        do movingSubset2 <- movingFSOf fs goalFrameList;
        do moving' <- mergeMoving moving movingSubset2;
        inr (mkChain moving' frames (Name solveFrame) (Name goalFrame) false)
      else
        let solveMovingList := untilPivot pivotFrame solveFrameList in
        let goalMovingList := untilPivot pivotFrame goalFrameList in
        let dof := dofOf solveMovingList + dofOf goalMovingList in
        let frames := solveMovingList ++ goalMovingList in
        if decide (dof = 0) then
          do moving <- movingFSOf fs solveFrameList;
          inr (mkChain moving solveFrameList (Name solveFrame) (Name goalFrame) true)
        else
          do moving <- movingFSOf fs solveMovingList;
          do movingSubset2 <- movingFSOf fs goalMovingList;
          do moving' <- mergeMoving moving movingSubset2;
          inr (mkChain moving' frames (Name solveFrame) (Name goalFrame) false)
    end
  end.

(** The first-moving-frame rule in the words of the specification: the
    chain is scanned from the leaf, the frame itself, toward the root. *)
Definition movingFSOf_leafFirst (fs : FrameSystem) (frameList : list Frame)
    : error + FrameSystem :=
  match find (λ f, negb (noDoF f)) frameList with
  | None => inr (NewEmptyFrameSystem "")
  | Some moveF => FrameSystemSubset fs moveF
  end.

End Chain.

(** ** The motion chains aggregate *)

Module Chains.
Import RefFrame Chain.

(** The struct [motionChains]. *)
Record motionChains := mkChains {
  inner : list motionChain;
  useTPspace : bool;
  ptgFrameName : string
}.

(** The inner loop of the check for PTG frames, over the frames of one
    chain: [nChains] is [len(inner)], [useTP] and [ptgName] are the
    variables [useTPspace] and [ptgFrameName], and [wr] is the field
    [worldRooted] of the chain, which the loop sets. *)
Fixpoint checkFrames (nChains : nat) (fr : list Frame)
    (useTP : bool) (ptgName : string) (wr : bool)
    : error + (bool * string * bool) :=
  match fr with
  | [] => inr (useTP, ptgName, wr)
  | movingFrame :: rest =>
      if isPTGProvider movingFrame then
        if useTP then inl errOnlyOnePTG
        else if decide (1 < nChains) then inl errMixedFrameTypes
        else checkFrames nChains rest true (Name movingFrame) true
      else if decide (0 < length (DoF movingFrame)) then
        if useTP then inl errMixedFrameTypes
        else checkFrames nChains rest useTP ptgName wr
      else checkFrames nChains rest useTP ptgName wr
  end.

(** [chain.worldRooted = wr] *)
Definition setWorldRooted (wr : bool) (chain : motionChain) : motionChain :=
  mkChain (movingFS chain) (frames chain) (solveFrameName chain)
          (goalFrameName chain) wr.

(** The outer loop, over the chains; the chains come back as the loop
    left them. *)
Fixpoint checkChains (nChains : nat) (chains : list motionChain)
    (useTP : bool) (ptgName : string)
    : error + (list motionChain * bool * string) :=
  match chains with
  | [] => inr ([], useTP, ptgName)
  | chain :: rest =>
      do r <- checkFrames nChains (frames chain) useTP ptgName (worldRooted chain);
      let '(useTP', ptgName', wr) := r in
      do r' <- checkChains nChains rest useTP' ptgName';
      let '(rest', useTP'', ptgName'') := r' in
      inr (setWorldRooted wr chain :: rest', useTP'', ptgName'')
  end.

(** The check on the chains once they are built: at least one chain, and
    the PTG rules. *)
Definition checkInner (inner : list motionChain) : error + motionChains :=
  if decide (length inner < 1) then inl errNoChains else
  do r <- checkChains (length inner) inner false "";
  let '(inner', useTP, ptgName) := r in
  inr (mkChains inner' useTP ptgName).

(** One chain per goal, in the order the goals are met; the first error
    ends the loop. *)
Fixpoint chainsFromGoals (fs : FrameSystem) (goals : list (string * string))
    : error + list motionChain :=
  match goals with
  | [] => inr []
  | (frame, goalFrame) :: rest =>
      do chain <- motionChainFromGoal fs frame goalFrame;
      do chains <- chainsFromGoals fs rest;
      inr (chain :: chains)
  end.

Section Goals.
Context {Pose Geometry : Type}.

(** [referenceframe.PoseInFrame]: a pose and the name of the frame it is
    observed in. *)
Record PoseInFrame := mkPIF { parent : string; pose : Pose }.

(** [motionChainsFromPlanState]. Go visits the entries of a map in an
    order it does not specify: [posesRange] and [configurationRange] are
    the entries of [to.poses] and [to.configuration] in the order the two
    range loops meet them. *)
Definition motionChainsFromPlanState (fs : FrameSystem)
    (posesRange : list (string * PoseInFrame))
    (configurationRange : list (string * list Input)) : error + motionChains :=
  do poseChains <- chainsFromGoals fs ((λ e, (e.1, parent e.2)) <$> posesRange);
  do confChains <- chainsFromGoals fs ((λ e, (e.1, e.1)) <$> configurationRange);
  checkInner (poseChains ++ confChains).




(** The struct [PlanState]. The map of poses is a Go map, a reference to
    an object that can be written; it is kept in a store and the struct
    has its location ([None] is the nil map). The configuration is only
    passed on. *)
Record PlanState := mkPlanState {
  poses : option nat;
  configuration : option FrameSystemInputs
}.

(** [fs.Transform(start, pif, dst)], of package referenceframe, followed
    by the type assertion to a pose in a frame. *)
Variable Transform :
  FrameSystem → FrameSystemInputs → PoseInFrame → string → error + PoseInFrame.

(** The loop of [translateGoalsToWorldPosition] over the chains:
    [goalPoses] is the location of [goal.poses], [alteredGoals] the
    location of the new map, [σ] the store of the maps of poses. *)
Fixpoint translate_loop (chains : list motionChain) (fs : FrameSystem)
    (start : FrameSystemInputs) (goalPoses alteredGoals : nat)
    (σ : gmap nat (gmap string PoseInFrame))
    : gmap nat (gmap string PoseInFrame) * option error :=
  match chains with
  | [] => (σ, None)
  | chain :: rest =>
      match σ !! goalPoses ≫= (λ m, m !! solveFrameName chain) with
      | Some goalPif =>
          if worldRooted chain then
            match Transform fs start goalPif World with
            | inl err => (σ, Some err)
            | inr tf =>
                translate_loop rest fs start goalPoses alteredGoals
                  (alter (insert (solveFrameName chain) tf) alteredGoals σ)
            end
          else
            translate_loop rest fs start goalPoses alteredGoals
              (alter (insert (solveFrameName chain) goalPif) alteredGoals σ)
      | None => translate_loop rest fs start goalPoses alteredGoals σ
      end
  end.

(** [translateGoalsToWorldPosition]: the store after the call and what
    the call returns. *)
Definition translateGoalsToWorldPosition (mC : motionChains) (fs : FrameSystem)
    (start : FrameSystemInputs) (goal : PlanState)
    (σ : gmap nat (gmap string PoseInFrame))
    : gmap nat (gmap string PoseInFrame) * (error + PlanState) :=
  let alteredGoals := fresh (dom σ) in
  let σ1 := <[alteredGoals := ∅]> σ in
  match poses goal with
  | Some goalPoses =>
      match translate_loop (inner mC) fs start goalPoses alteredGoals σ1 with
      | (σ2, Some err) => (σ2, inl err)
      | (σ2, None) => (σ2, inr (mkPlanState (Some alteredGoals) (configuration goal)))
      end
  | None => (σ1, inr goal)
  end.

End Goals.

Arguments PoseInFrame : clear implicits.

(** The map [movingMap] of [framesFilteredByMovingAndNonmoving]. *)
Definition movingMapOf (chains : list motionChain) : gmap string Frame :=
  foldl (λ m chain, foldl (λ m frame, <[Name frame := frame]> m) m (frames chain))
        ∅ chains.

(** [framesFilteredByMovingAndNonmoving], on the list of names that
    [fs.FrameNames()] returns. *)
Definition framesFilteredByMovingAndNonmoving (mC : motionChains)
    (frameNames : list string) : list string * list string :=
  let movingMap := movingMapOf (inner mC) in
  foldl (λ acc frameName,
           if decide (is_Some (movingMap !! frameName))
           then (acc.1 ++ [frameName], acc.2)
           else (acc.1, acc.2 ++ [frameName]))
        ([], []) frameNames.

End Chains.

(** ** The constructor of the linearized frame system *)

(** [newLinearizedFrameSystem], on the list of names that
    [fs.FrameNames()] returns. *)
Fixpoint newLinearized_loop (fs : RefFrame.FrameSystem) (frameNames : list string)
    (frames : list Frame) (dof : list Limit)
    : error + Linearized.linearizedFrameSystem :=
  match frameNames with
  | [] => inr (Linearized.mkLFS frames dof)
  | fName :: rest =>
      match RefFrame.frameByName fs fName with
      | None =>
          inl (errExternal ("frame " +:+ fName +:+
                 " was returned in list of frame names, but was not found in frame system"))
      | Some frame => newLinearized_loop fs rest (frames ++ [frame]) (dof ++ DoF frame)
      end
  end.

Definition newLinearizedFrameSystem (fs : RefFrame.FrameSystem)
    (frameNames : list string) : error + Linearized.linearizedFrameSystem :=
  newLinearized_loop fs frameNames [] [].

(** ** Planning result promise *)

Module Promise.
Section Nodes.
Context {node : Type}.

(** [rrtSolution], what the search worker sends: steps and an error
    ([None] is nil). *)
Record rrtSolution := mkSolution {
  solSteps : option (list node);
  solErr : option error
}.

(** The channel [future], seen through what a receive on it meets. *)
Inductive chanState :=
| NilChan                          (* the nil channel: no channel was made *)
| Waiting                          (* no value yet: the worker did not send *)
| Sent (planReturn : rrtSolution)  (* a value is there *)
| Closed.

(** [resultPromise]. [steps] is a slice, nil ([None]) or not. *)
Record resultPromise := mkPromise {
  steps : option (list node);
  future : chanState
}.

(** What [result] returns. *)
Definition outcome : Type := option (list node) * option error.

(** A call of [result]: it returns at once, or it first receives from the
    channel [future] and goes on with what it received; [None] is the nil
    pointer that a closed channel yields, and the read of its field
    panics. *)
Inductive call :=
| Return (r : outcome)
| Receive (k : option rrtSolution → option outcome).

(** [len(s) > 0] on a slice; the length of the nil slice is 0. *)
Definition nonEmpty (s : option (list node)) : bool :=
  match s with
  | Some (_ :: _) => true
  | _ => false
  end.

(** [resultPromise.result]. *)
Definition result (r : resultPromise) : call :=
  if bool_decide (steps r ≠ None) && nonEmpty (steps r)
  then Return (steps r, None)
  else Receive (λ planReturn,
         match planReturn with
         | None => None
         | Some planReturn =>
             match solErr planReturn with
             | Some err => Some (None, Some err)
             | None => Some (solSteps planReturn, None)
             end
         end).

(** What the caller of [result] observes. *)
Inductive observed :=
| Returns (r : outcome)
| Blocks
| Panics.

(** A call of [result] against the state of the channel. A receive on a
    nil channel, or on a channel without a value, blocks. *)
Definition run (r : resultPromise) : observed :=
  match result r with
  | Return o => Returns o
  | Receive k =>
      match future r with
      | NilChan | Waiting => Blocks
      | Sent planReturn =>
          match k (Some planReturn) with Some o => Returns o | None => Panics end
      | Closed =>
          match k None with Some o => Returns o | None => Panics end
      end
  end.

End Nodes.
Arguments rrtSolution : clear implicits.
Arguments resultPromise : clear implicits.
Arguments chanState : clear implicits.
Arguments call : clear implicits.
Arguments observed : clear implicits.
End Promise.


(** ** The methods of the arm collectors (package arm) *)

Module ArmMethod.

(** [type method int64], with the constants that [iota] numbers. *)
Definition method := Z.
Definition endPosition : method := 0%Z.
Definition jointPositions : method := 1%Z.
Definition doCommand : method := 2%Z.

(** [method.String]. *)
Definition String (m : method) : string :=
  if decide (m = endPosition) then "EndPosition"
  else if decide (m = jointPositions) then "JointPositions"
  else if decide (m = doCommand) then "DoCommand"
  else "Unknown".

End ArmMethod.

(** ** Notions used in the statements *)

(** [f] is the frame that the system keeps under the name of [f]. *)
Definition inFS (fs : RefFrame.FrameSystem) (f : Frame) : Prop :=
  RefFrame.frameByName fs (Name f) = Some f.

(** The scan of [findPivotFrame]: the first frame of [long] whose name is
    the name of a frame of [short]. *)
Definition scanFor (short long : list Frame) : option Frame :=
  find (λ frame, bool_decide (Name frame ∈@{gset string} list_to_set (Name <$> short))) long.

(** No frame of the list is a PTG frame. *)
Definition noPTG (fr : list Frame) : Prop := ∀ f, f ∈ fr → isPTGProvider f = false.

(** No frame of the list is a PTG frame or has degrees of freedom. *)
Definition rigid (fr : list Frame) : Prop :=
  ∀ f, f ∈ fr → isPTGProvider f = false ∧ DoF f = [].


(** The number of values that the frames of a list take together. *)
Definition totalDoF (fr : list Frame) : nat := sum_list ((λ f, length (DoF f)) <$> fr).

(** The frames of a list that are met for the first time, [seen] being
    the identities met before. *)
Fixpoint firstOccurrences (seen : gset nat) (vs : list Frame) : list Frame :=
  match vs with
  | [] => []
  | v :: rest =>
      if bool_decide (addr v ∈ seen) then firstOccurrences seen rest
      else v :: firstOccurrences ({[addr v]} ∪ seen) rest
  end.

(** A name is in the frame span of some chain. *)
Definition inSpan (chains : list Chain.motionChain) (n : string) : Prop :=
  ∃ chain f, chain ∈ chains ∧ f ∈ Chain.frames chain ∧ Name f = n.

(** The parents of every frame of the system lead to the root. *)
Definition parentsLeadToRoot (fs : RefFrame.FrameSystem) : Prop :=
  Forall (λ nf, is_Some (RefFrame.traceback fs (RefFrame.enoughFuel fs) nf.2))
         (map_to_list (RefFrame.frames fs)).

(** How [chain] was built from the chains [l1] and [l2], split at the
    pivot [p] into [pre1], [pre2] and the common [suf]. *)
Definition builtAs (fs : RefFrame.FrameSystem) (chain : Chain.motionChain)
    (l1 l2 : list Frame) (p : Frame) (pre1 pre2 : list Frame) : Prop :=
  (Name p = World ∧ Chain.worldRooted chain = false ∧
   Chain.frames chain = Chain.uniqInPlaceSlice (l1 ++ l2) ∧
   ∃ m1 m2, Chain.movingFSOf fs l1 = inr m1 ∧ Chain.movingFSOf fs l2 = inr m2 ∧
            Chain.mergeMoving m1 m2 = inr (Chain.movingFS chain)) ∨
  (Name p ≠ World ∧ Chain.dofOf pre1 + Chain.dofOf pre2 = 0 ∧
   Chain.worldRooted chain = true ∧
   Chain.frames chain = l1 ∧ Chain.movingFSOf fs l1 = inr (Chain.movingFS chain)) ∨
  (Name p ≠ World ∧ Chain.dofOf pre1 + Chain.dofOf pre2 ≠ 0 ∧
   Chain.worldRooted chain = false ∧
   Chain.frames chain = pre1 ++ pre2 ∧
   ∃ m1 m2, Chain.movingFSOf fs pre1 = inr m1 ∧ Chain.movingFSOf fs pre2 = inr m2 ∧
            Chain.mergeMoving m1 m2 = inr (Chain.movingFS chain)).

(** ** Sample data *)

Module Samples.
Import RefFrame.

(** A linearized system of three frames, the middle one fixed. *)
Definition lim : Limit := mkLimit (-1)%float 1%float.
Definition lfs3 : Linearized.linearizedFrameSystem :=
  Linearized.mkLFS
    [mkFrame 1 "arm" [lim; lim] false; mkFrame 2 "mount" [] false;
     mkFrame 3 "gripper" [lim] false]
    [lim; lim; lim].
Definition x3 : FrameSystemInputs :=
  <["arm" := [mkInput 0.5%float; mkInput 0.25%float]]>
    (<["gripper" := [mkInput 1%float]]> ∅).


(** A robot: a fixed base on the root, an arm with two joints on the
    base, a wrist with one joint on the arm, and a gripper and a camera
    fixed to the arm. *)
Definition root : Frame := mkFrame 100 World [] false.
Definition base : Frame := mkFrame 1 "base" [] false.
Definition arm : Frame := mkFrame 2 "arm" [lim; lim] false.
Definition gripper : Frame := mkFrame 3 "gripper" [] false.
Definition camera : Frame := mkFrame 4 "camera" [] false.
Definition wrist : Frame := mkFrame 5 "wrist" [lim] false.

Definition robot : FrameSystem :=
  mkFS "robot" root
    (list_to_map [("base", base); ("arm", arm); ("gripper", gripper);
                  ("camera", camera); ("wrist", wrist)])
    (list_to_map [("base", World); ("arm", "base"); ("gripper", "arm");
                  ("camera", "arm"); ("wrist", "arm")]).

Definition gripperChain : list Frame := [gripper; arm; base; root].
Definition cameraChain : list Frame := [camera; arm; base; root].
Definition wristChain : list Frame := [wrist; arm; base; root].

(** A rover: a base that moves by trajectory primitives, and a mast with
    one joint, both on the root. *)
Definition ptgBase : Frame := mkFrame 11 "base" [lim; lim] true.
Definition mast : Frame := mkFrame 12 "mast" [lim] false.
Definition rover : FrameSystem :=
  mkFS "rover" root
    (list_to_map [("base", ptgBase); ("mast", mast)])
    (list_to_map [("base", World); ("mast", World)]).

(** A tug that pulls a trailer, both moving by trajectory primitives. *)
Definition tug : Frame := mkFrame 21 "tug" [lim; lim] true.
Definition trailer : Frame := mkFrame 22 "trailer" [lim; lim] true.
Definition towed : FrameSystem :=
  mkFS "towed" root
    (list_to_map [("tug", tug); ("trailer", trailer)])
    (list_to_map [("tug", World); ("trailer", "tug")]).

(** A cart that moves by trajectory primitives, on a slider with one
    joint. *)
Definition slider : Frame := mkFrame 31 "slider" [lim] false.
Definition cart : Frame := mkFrame 32 "cart" [lim; lim] true.
Definition carted : FrameSystem :=
  mkFS "carted" root
    (list_to_map [("slider", slider); ("cart", cart)])
    (list_to_map [("slider", World); ("cart", "slider")]).

(** Poses are numbers in the samples. *)
Definition inWorld (p : nat) : Chains.PoseInFrame nat := Chains.mkPIF World p.

(** A transform for the samples: the pose moves by 100 and is then in
    the destination frame. *)
Definition shift (fs : FrameSystem) (start : FrameSystemInputs)
    (pif : Chains.PoseInFrame nat) (dst : string) : error + Chains.PoseInFrame nat :=
  inr (Chains.mkPIF dst (Chains.pose pif + 100)).

(** A transform that fails. *)
Definition noTransform (fs : FrameSystem) (start : FrameSystemInputs)
    (pif : Chains.PoseInFrame nat) (dst : string) : error + Chains.PoseInFrame nat :=
  inl (errExternal "no transform").

(** A goal for the gripper, 5 in the frame of the camera, in a store of
    one map, and a goal for the wrist in that frame. *)
Definition gripperGoal : Chains.PlanState := Chains.mkPlanState (Some 0) None.
Definition gripperStore : gmap nat (gmap string (Chains.PoseInFrame nat)) :=
  {[ 0 := {[ "gripper" := Chains.mkPIF "camera" 5 ]} ]}.
Definition wristStore : gmap nat (gmap string (Chains.PoseInFrame nat)) :=
  {[ 0 := {[ "wrist" := Chains.mkPIF "camera" 5 ]} ]}.

(** The chains for one goal: the gripper, seen from the camera. *)
Definition gripperFromCamera : Chains.motionChains :=
  match Chain.motionChainFromGoal robot "gripper" "camera" with
  | inr chain => Chains.mkChains [chain] false ""
  | inl _ => Chains.mkChains [] false ""
  end.

(** The chains for one goal: the wrist, seen from the camera. *)
Definition wristFromCamera : Chains.motionChains :=
  match Chain.motionChainFromGoal robot "wrist" "camera" with
  | inr chain => Chains.mkChains [chain] false ""
  | inl _ => Chains.mkChains [] false ""
  end.

(** The chain of a goal for the base of the rover, as it is built. *)
Definition ptgChain : Chain.motionChain :=
  match Chain.motionChainFromGoal rover "base" World with
  | inr chain => chain
  | inl _ => Chain.mkChain (NewEmptyFrameSystem "") [] "" "" false
  end.

(** The chain of a goal for the trailer, as it is built. *)
Definition trailerChain : Chain.motionChain :=
  match Chain.motionChainFromGoal towed "trailer" World with
  | inr chain => chain
  | inl _ => Chain.mkChain (NewEmptyFrameSystem "") [] "" "" false
  end.


End Samples.
(** ** Facts about the linearized frame system *)

Section LinearizedFacts.
Import Linearized.

Lemma noDoF_false f : noDoF f = false ↔ DoF f ≠ [].
Proof.
  unfold noDoF. destruct (DoF f); simpl; split; intros; congruence.
Qed.

Lemma movingName_cons f fr n :
  movingName (f :: fr) n ↔ (Name f = n ∧ noDoF f = false) ∨ movingName fr n.
Proof.
  unfold movingName. split.
  - intros (g & [->|Hin]%elem_of_cons & Hn & Hd); eauto.
  - intros [[Hn Hd]|(g & Hin & Hn & Hd)].
    + exists f. split; [left|done].
    + exists g. split; [by right|done].
Qed.

Lemma movingName_nil n : ¬ movingName [] n.
Proof. intros (f & Hin & _). by apply elem_of_nil in Hin. Qed.

Lemma covers_cons f fr x : covers (f :: fr) x → covers fr x.
Proof. intros H g Hg. apply H. by right. Qed.

Lemma mapToSlice_loop_flattened fr x acc :
  covers fr x → mapToSlice_loop fr x acc = inr (acc ++ flattened fr x).
Proof.
  revert acc. induction fr as [|f fr IH]; intros acc Hc; simpl.
  - by rewrite app_nil_r.
  - destruct (noDoF f) eqn:Hd.
    + apply IH. by eapply covers_cons.
    + destruct (Hc f) as (v & Hv & _); [left|done|].
      rewrite Hv. simpl. rewrite IH by (by eapply covers_cons).
      by rewrite app_assoc.
Qed.

Lemma take_S_insert {A} (l : list A) j x :
  j < length l → take (S j) (<[j := x]> l) = take j l ++ [x].
Proof.
  revert j. induction l as [|a l IH]; intros [|j] Hj; simpl in *; try lia.
  - by rewrite take_0.
  - f_equal. apply IH. lia.
Qed.

Lemma fillInputs_spec n : ∀ j s i acc,
  length acc = j + n → i ≤ length s →
  fillInputs n j s i acc =
    if decide (i + n ≤ length s)
    then Some (take j acc ++ (mkInput <$> take n (drop i s)), i + n)
    else None.
Proof.
  induction n as [|n IH]; intros j s i acc Hlen Hi0; simpl.
  - rewrite decide_True by lia.
    rewrite ?take_0; simpl. rewrite app_nil_r, Nat.add_0_r.
    by rewrite take_ge by lia.
  - destruct (s !! i) as [v|] eqn:Hv.
    + pose proof (lookup_lt_Some _ _ _ Hv) as Hi.
      rewrite IH by (rewrite ?length_insert; lia).
      rewrite take_S_insert by lia.
      destruct (decide (i + S n ≤ length s)).
      * rewrite decide_True by lia. f_equal. f_equal; [|lia].
        rewrite <- app_assoc. f_equal. simpl. f_equal.
        rewrite (drop_S _ _ _ Hv). done.
      * by rewrite decide_False by lia.
    + apply lookup_ge_None in Hv. by rewrite decide_False by lia.
Qed.

Lemma fillInputs_fresh n s i :
  i ≤ length s →
  fillInputs n 0 s i (replicate n (mkInput 0%float)) =
    if decide (i + n ≤ length s)
    then Some (mkInput <$> take n (drop i s), i + n) else None.
Proof.
  intros Hi. rewrite fillInputs_spec by (by rewrite ?length_replicate).
  by rewrite take_0.
Qed.

Lemma mkInput_Value (v : list Input) : mkInput <$> (Value <$> v) = v.
Proof. induction v as [|[a] v IH]; simpl; by f_equal. Qed.

(** Unflattening a vector that starts, at the cursor, with the flattened
    image of [x]: each frame with degrees of freedom gets [x]'s entry. *)
Lemma sliceToMap_loop_flattened fr x : ∀ pre post m,
  covers fr x →
  ∃ m', sliceToMap_loop fr (pre ++ flattened fr x ++ post) (length pre) m = inr m' ∧
        ∀ n, (movingName fr n → m' !! n = x !! n) ∧
             (¬ movingName fr n → m' !! n = m !! n).
Proof.
  induction fr as [|f fr IH]; intros pre post m Hc; simpl.
  - exists m. split; [done|]. intros n. split; [|done].
    intros H. by apply movingName_nil in H.
  - destruct (noDoF f) eqn:Hd.
    + destruct (IH pre post m) as (m' & Hm' & Hl); [by eapply covers_cons|].
      exists m'. split; [done|]. intros n. rewrite movingName_cons.
      destruct (Hl n) as [H1 H2]. split.
      * intros [[_ ?]|?]; [congruence|auto].
      * intros Hn. apply H2. tauto.
    + destruct (Hc f) as (v & Hv & Hlen); [left|done|].
      rewrite Hv. simpl.
      rewrite fillInputs_fresh by (rewrite length_app; lia).
      assert (Hdrop : drop (length pre)
                (pre ++ ((Value <$> v) ++ flattened fr x) ++ post)
              = (Value <$> v) ++ flattened fr x ++ post).
      { rewrite drop_app_length. by rewrite <- app_assoc. }
      rewrite Hdrop.
      rewrite decide_True
        by (rewrite ?length_app, ?length_fmap; lia).
      rewrite <- Hlen, <- (length_fmap Value v), take_app_length.
      rewrite mkInput_Value.
      destruct (IH (pre ++ (Value <$> v)) post (<[Name f := v]> m))
        as (m' & Hm' & Hl); [by eapply covers_cons|].
      rewrite length_app in Hm'. rewrite <- !app_assoc in Hm'.
      rewrite <- !app_assoc. rewrite Hm'.
      exists m'. split; [done|]. intros n. rewrite movingName_cons.
      destruct (Hl n) as [H1 H2].
      destruct (decide (movingName fr n)) as [Hmv|Hmv].
      * split; [auto|tauto].
      * split.
        -- intros [[Hn _]|?]; [|done]. subst n.
           rewrite H2 by done. by rewrite lookup_insert_eq.
        -- intros Hn. assert (Name f ≠ n) by (intros ?; apply Hn; auto).
           rewrite H2 by done. by rewrite lookup_insert_ne.
Qed.

(** The keys of the result of [sliceToMap]. *)
Lemma sliceToMap_loop_keys fr : ∀ s i m m',
  sliceToMap_loop fr s i m = inr m' →
  ∀ n, is_Some (m' !! n) ↔ is_Some (m !! n) ∨ movingName fr n.
Proof.
  induction fr as [|f fr IH]; intros s i m m' Hrun n; simpl in Hrun.
  - inversion Hrun; subst. split; [auto|].
    intros [?|H]; [done|]. by apply movingName_nil in H.
  - rewrite movingName_cons. destruct (noDoF f) eqn:Hd.
    + rewrite (IH _ _ _ _ Hrun n). split; [tauto|].
      intros [?|[[_ ?]|?]]; [tauto|congruence|tauto].
    + destruct (fillInputs _ _ _ _ _) as [[fi i']|]; [|done].
      rewrite (IH _ _ _ _ Hrun n).
      destruct (decide (Name f = n)) as [->|Hne].
      * rewrite lookup_insert_eq. split; [intros _; right; left; done|].
        intros _. left. eauto.
      * rewrite lookup_insert_ne by done. split; [tauto|].
        intros [?|[[? _]|?]]; [tauto|done|tauto].
Qed.

End LinearizedFacts.

(** C2. Flatten-then-unflatten is the identity: when the mapping [x] has
    an entry of the right length for every frame of the cached ordering
    that has degrees of freedom, [mapToSlice] succeeds, [sliceToMap] of
    its result succeeds, and the result agrees with [x] at every such
    frame; when [x] has no other keys, the result is [x] itself. *)
Theorem sliceToMap_mapToSlice_roundtrip
    (lfs : Linearized.linearizedFrameSystem) (x : FrameSystemInputs) :
  (∀ f, f ∈ Linearized.frames lfs → DoF f ≠ [] →
        ∃ v, x !! Name f = Some v ∧ length v = length (DoF f)) →
  ∃ s m, Linearized.mapToSlice lfs x = inr s ∧
         Linearized.sliceToMap lfs s = inr m ∧
         (∀ f, f ∈ Linearized.frames lfs → DoF f ≠ [] →
               m !! Name f = x !! Name f) ∧
         ((∀ n, is_Some (x !! n) →
                ∃ f, f ∈ Linearized.frames lfs ∧ Name f = n ∧ DoF f ≠ []) →
          m = x).
Proof.
  intros Hx.
  assert (Hc : Linearized.covers (Linearized.frames lfs) x).
  { intros f Hf Hd. apply Hx; [done|]. by apply noDoF_false. }
  unfold Linearized.mapToSlice, Linearized.sliceToMap.
  rewrite mapToSlice_loop_flattened by done. simpl.
  destruct (sliceToMap_loop_flattened (Linearized.frames lfs) x [] [] ∅ Hc)
    as (m & Hm & Hl).
  simpl in Hm. rewrite app_nil_r in Hm.
  exists (Linearized.flattened (Linearized.frames lfs) x), m.
  split; [done|]. split; [done|]. split.
  - intros f Hf Hd. apply Hl. exists f. by rewrite noDoF_false.
  - intros Hdom. apply map_eq. intros n.
    destruct (decide (Linearized.movingName (Linearized.frames lfs) n)) as [Hn|Hn].
    + destruct (Hl n) as [H1 _]. exact (H1 Hn).
    + destruct (Hl n) as [_ H2]. rewrite (H2 Hn), lookup_empty.
      destruct (x !! n) eqn:Hxn; [|done]. exfalso. apply Hn.
      destruct (Hdom n) as (f & ? & ? & ?); [by rewrite Hxn|].
      exists f. by rewrite noDoF_false.
Qed.

(** C10. When [sliceToMap] succeeds, the keys of its result are exactly
    the names of the frames of the cached ordering that have degrees of
    freedom. *)
Theorem sliceToMap_keys
    (lfs : Linearized.linearizedFrameSystem) (floatSlice : list float64)
    (m : FrameSystemInputs) :
  Linearized.sliceToMap lfs floatSlice = inr m →
  ∀ n, is_Some (m !! n) ↔
       ∃ f, f ∈ Linearized.frames lfs ∧ Name f = n ∧ DoF f ≠ [].
Proof.
  intros Hrun n. unfold Linearized.sliceToMap in Hrun.
  rewrite (sliceToMap_loop_keys _ _ _ _ _ Hrun n), lookup_empty.
  unfold Linearized.movingName. split.
  - intros [[? ?]|(f & ? & ? & ?)]; [done|]. exists f. by rewrite <- noDoF_false.
  - intros (f & ? & ? & ?). right. exists f. by rewrite noDoF_false.
Qed.

Lemma sliceToMap_mapToSlice_roundtrip_witness :
  ∃ s m, Linearized.mapToSlice Samples.lfs3 Samples.x3 = inr s ∧
         Linearized.sliceToMap Samples.lfs3 s = inr m ∧
         (∀ f, f ∈ Linearized.frames Samples.lfs3 → DoF f ≠ [] →
               m !! Name f = Samples.x3 !! Name f) ∧
         ((∀ n, is_Some (Samples.x3 !! n) →
                ∃ f, f ∈ Linearized.frames Samples.lfs3 ∧ Name f = n ∧ DoF f ≠ []) →
          m = Samples.x3).
Proof.
  apply (sliceToMap_mapToSlice_roundtrip Samples.lfs3 Samples.x3).
  intros f Hf Hd. simpl in Hf.
  repeat (apply elem_of_cons in Hf as [->|Hf]); [| |  |by apply elem_of_nil in Hf].
  - exists [mkInput 0.5%float; mkInput 0.25%float]. split; reflexivity.
  - by destruct Hd.
  - exists [mkInput 1%float]. split; reflexivity.
Defined.

Lemma sliceToMap_keys_witness :
  (is_Some (Samples.x3 !! "arm") ↔
     ∃ f, f ∈ Linearized.frames Samples.lfs3 ∧ Name f = "arm" ∧ DoF f ≠ []) ∧
  (is_Some (Samples.x3 !! "mount") ↔
     ∃ f, f ∈ Linearized.frames Samples.lfs3 ∧ Name f = "mount" ∧ DoF f ≠ []).
Proof.
  assert (Hrun : Linearized.sliceToMap Samples.lfs3
                   [0.5%float; 0.25%float; 1%float; 7%float] = inr Samples.x3)
    by (vm_compute; reflexivity).
  split.
  - exact (sliceToMap_keys Samples.lfs3 _ Samples.x3 Hrun "arm").
  - exact (sliceToMap_keys Samples.lfs3 _ Samples.x3 Hrun "mount").
Defined.

(** ** Facts about lists *)

Lemma find_split {A} (P : A → bool) (l : list A) p :
  find P l = Some p →
  ∃ pre suf, l = pre ++ p :: suf ∧ P p = true ∧ ∀ x, x ∈ pre → P x = false.
Proof.
  induction l as [|a l IH]; simpl; [done|].
  destruct (P a) eqn:Ha.
  - intros [= ->]. exists [], l. split; [done|]. split; [done|].
    intros x Hx. by apply elem_of_nil in Hx.
  - intros (pre & suf & -> & Hp & Hpre)%IH.
    exists (a :: pre), suf. split; [done|]. split; [done|].
    intros x [->|Hx]%elem_of_cons; auto.
Qed.

Lemma find_none_all {A} (P : A → bool) (l : list A) :
  find P l = None → ∀ x, x ∈ l → P x = false.
Proof.
  induction l as [|a l IH]; simpl.
  - intros _ x Hx. by apply elem_of_nil in Hx.
  - destruct (P a) eqn:Ha; [done|].
    intros Hl x [->|Hx]%elem_of_cons; auto.
Qed.

Lemma find_first {A} (P : A → bool) (pre suf : list A) p :
  P p = true → (∀ x, x ∈ pre → P x = false) →
  find P (pre ++ p :: suf) = Some p.
Proof.
  intros Hp. induction pre as [|a pre IH]; intros Hpre; simpl.
  - by rewrite Hp.
  - rewrite (Hpre a) by left. apply IH. intros x Hx. apply Hpre. by right.
Qed.

Lemma NoDup_fmap_inj_on {A B} (h : A → B) (l : list A) x y :
  NoDup (h <$> l) → x ∈ l → y ∈ l → h x = h y → x = y.
Proof.
  induction l as [|a l IH]; simpl.
  - intros _ Hx. by apply elem_of_nil in Hx.
  - intros [Ha Hnd]%NoDup_cons [->|Hx]%elem_of_cons [->|Hy]%elem_of_cons Heq;
      [done| | |by apply IH].
    + exfalso. apply Ha. rewrite Heq. by apply list_elem_of_fmap_2.
    + exfalso. apply Ha. rewrite <- Heq. by apply list_elem_of_fmap_2.
Qed.

(** ** Facts about the frame system *)

Section TracebackFacts.
Import RefFrame.
Context (fs : FrameSystem).

Lemma inFS_name_inj f g : inFS fs f → inFS fs g → Name f = Name g → f = g.
Proof. unfold inFS. intros Hf Hg Hn. rewrite Hn in Hf. congruence. Qed.

Lemma traceback_S k f :
  traceback fs (S k) f =
    if sameFrame f (world fs) then Some [f]
    else p ← parentOf fs f; cons f <$> traceback fs k p.
Proof. reflexivity. Qed.

Lemma traceback_mono k k' f l :
  traceback fs k f = Some l → k ≤ k' → traceback fs k' f = Some l.
Proof.
  revert k' f l. induction k as [|k IH]; intros k' f l Hrun Hle; [done|].
  destruct k' as [|k']; [lia|]. rewrite traceback_S in *.
  destruct (sameFrame f (world fs)); [done|].
  destruct (parentOf fs f) as [p|]; simpl in *; [|done].
  destruct (traceback fs k p) as [t|] eqn:Ht; simpl in *; [|done].
  rewrite (IH k' p t Ht) by lia. done.
Qed.

Lemma traceback_head k f l :
  traceback fs k f = Some l → ∃ t, l = f :: t.
Proof.
  destruct k as [|k]; [done|]. rewrite traceback_S.
  destruct (sameFrame f (world fs)); [intros [= <-]; eauto|].
  destruct (parentOf fs f) as [p|]; simpl; [|done].
  destruct (traceback fs k p) as [t|]; simpl; [|done].
  intros [= <-]. eauto.
Qed.

Lemma traceback_suffix k f pre x suf :
  traceback fs k f = Some (pre ++ x :: suf) →
  traceback fs k x = Some (x :: suf).
Proof.
  revert f pre. induction k as [|k IH]; intros f pre Hrun; [done|].
  pose proof Hrun as Hrun'. rewrite traceback_S in Hrun.
  destruct (sameFrame f (world fs)) eqn:Hw.
  - destruct pre as [|a [|b pre]]; simpl in Hrun; simplify_eq. done.
  - destruct (parentOf fs f) as [p|]; simpl in Hrun; [|done].
    destruct (traceback fs k p) as [t|] eqn:Ht; simpl in Hrun; [|done].
    destruct pre as [|a pre]; simpl in Hrun; simplify_eq; [done|].
    apply (traceback_mono k); [|lia]. by eapply IH.
Qed.

Lemma traceback_NoDup k f l : traceback fs k f = Some l → NoDup l.
Proof.
  revert f l. induction k as [|k IH]; intros f l Hrun; [done|].
  pose proof Hrun as Hrun'. rewrite traceback_S in Hrun.
  destruct (sameFrame f (world fs)).
  - simplify_eq. apply NoDup_singleton.
  - destruct (parentOf fs f) as [p|]; simpl in Hrun; [|done].
    destruct (traceback fs k p) as [t|] eqn:Ht; simpl in Hrun; [|done].
    simplify_eq. apply NoDup_cons. split; [|by eapply IH].
    intros (pre & suf & ->)%list_elem_of_split.
    pose proof (traceback_suffix (S k) f (f :: pre) f suf Hrun') as Hs.
    rewrite Hrun' in Hs. simplify_eq.
    assert (Hlen : length (pre ++ f :: suf) = length suf) by congruence.
    rewrite length_app in Hlen. simpl in Hlen. lia.
Qed.

Lemma traceback_last k f l :
  traceback fs k f = Some l →
  ∃ pre w, l = pre ++ [w] ∧ sameFrame w (world fs) = true.
Proof.
  revert f l. induction k as [|k IH]; intros f l Hrun; [done|].
  rewrite traceback_S in Hrun.
  destruct (sameFrame f (world fs)) eqn:Hw.
  - simplify_eq. by exists [], f.
  - destruct (parentOf fs f) as [p|]; simpl in *; [|done].
    destruct (traceback fs k p) as [t|] eqn:Ht; simpl in *; [|done].
    simplify_eq. destruct (IH _ _ Ht) as (pre & w & -> & Hww).
    by exists (f :: pre), w.
Qed.

Lemma TracebackFrame_inr f l :
  TracebackFrame fs f = inr l → traceback fs (enoughFuel fs) f = Some l.
Proof.
  unfold TracebackFrame. destruct (frameByName fs (Name f)); [|done].
  destruct (traceback fs (enoughFuel fs) f); by intros [= ->].
Qed.

Context (Hwf : treeStructured fs).

Lemma frameByName_name n f : frameByName fs n = Some f → Name f = n.
Proof.
  destruct Hwf as (Hw & Hkeys & _). unfold frameByName.
  destruct (decide (n = World)) as [->|Hn].
  - by intros [= <-].
  - intros Hl%elem_of_map_to_list.
    rewrite Forall_forall in Hkeys. by destruct (Hkeys _ Hl).
Qed.

Lemma frameByName_inFS n f : frameByName fs n = Some f → inFS fs f.
Proof. intros H. unfold inFS. by rewrite (frameByName_name _ _ H). Qed.

Lemma inFS_allFrames f : inFS fs f → f ∈ allFrames fs.
Proof.
  unfold inFS, frameByName, allFrames.
  destruct (decide (Name f = World)).
  - intros [= <-]. left.
  - intros Hl%elem_of_map_to_list. right.
    apply list_elem_of_fmap. by exists (Name f, f).
Qed.

Lemma inFS_addr_inj f g : inFS fs f → inFS fs g → addr f = addr g → f = g.
Proof.
  intros Hf%inFS_allFrames Hg%inFS_allFrames.
  destruct Hwf as (_ & _ & Hnd). by eapply NoDup_fmap_inj_on.
Qed.

Lemma inFS_world : inFS fs (world fs).
Proof.
  destruct Hwf as (Hw & _). unfold inFS, frameByName.
  by rewrite Hw, decide_True.
Qed.

Lemma sameFrame_inFS f g : inFS fs f → inFS fs g → sameFrame f g = true ↔ f = g.
Proof.
  intros Hf Hg. unfold sameFrame. rewrite Nat.eqb_eq. split.
  - by apply inFS_addr_inj.
  - by intros ->.
Qed.

Lemma parentOf_inFS f p : parentOf fs f = Some p → inFS fs p.
Proof.
  unfold parentOf. destruct (parents fs !! Name f) as [pn|]; simpl; [|done].
  apply frameByName_inFS.
Qed.

Lemma traceback_inFS k f l :
  inFS fs f → traceback fs k f = Some l → Forall (inFS fs) l.
Proof.
  revert f l. induction k as [|k IH]; intros f l Hf Hrun; [done|].
  rewrite traceback_S in Hrun.
  destruct (sameFrame f (world fs)).
  - simplify_eq. by apply Forall_singleton.
  - destruct (parentOf fs f) as [p|] eqn:Hp; simpl in *; [|done].
    destruct (traceback fs k p) as [t|] eqn:Ht; simpl in *; [|done].
    simplify_eq. apply Forall_cons. split; [done|].
    eapply IH; [|done]. by eapply parentOf_inFS.
Qed.

Lemma traceback_world_in k f l :
  inFS fs f → traceback fs k f = Some l → world fs ∈ l.
Proof.
  intros Hf Hrun.
  destruct (traceback_last _ _ _ Hrun) as (pre & w & -> & Hw).
  pose proof (traceback_inFS _ _ _ Hf Hrun) as Hall.
  rewrite Forall_forall in Hall.
  assert (Hin : w ∈ pre ++ [w]) by (apply elem_of_app; right; left).
  apply sameFrame_inFS in Hw; [by subst|by apply Hall|apply inFS_world].
Qed.

Lemma traceback_exact k f l :
  traceback fs k f = Some l → traceback fs (length l) f = Some l.
Proof.
  revert f l. induction k as [|k IH]; intros f l Hrun; [done|].
  rewrite traceback_S in Hrun.
  destruct (sameFrame f (world fs)) eqn:Hw.
  - simplify_eq. simpl. by rewrite Hw.
  - destruct (parentOf fs f) as [p|] eqn:Hp; simpl in Hrun; [|done].
    destruct (traceback fs k p) as [t|] eqn:Ht; simpl in Hrun; [|done].
    simplify_eq. change (length (f :: t)) with (S (length t)).
    rewrite traceback_S, Hw, Hp. simpl. by rewrite (IH _ _ Ht).
Qed.

(** The fuel of [TracebackFrame] is enough: a chain that is found with
    some fuel is found with the fuel that [TracebackFrame] gives. *)
Lemma traceback_enoughFuel k f l :
  inFS fs f → traceback fs k f = Some l →
  traceback fs (enoughFuel fs) f = Some l.
Proof.
  intros Hf Hrun.
  apply (traceback_mono (length l)); [by eapply traceback_exact|].
  pose proof (traceback_inFS _ _ _ Hf Hrun) as Hall.
  pose proof (traceback_NoDup _ _ _ Hrun) as Hnd.
  destruct (traceback_last _ _ _ Hrun) as (init & w & -> & Hw).
  rewrite Forall_forall in Hall.
  assert (Hwin : w ∈ init ++ [w]) by (apply elem_of_app; right; left).
  apply sameFrame_inFS in Hw; [|by apply Hall|apply inFS_world]. subst w.
  apply NoDup_app in Hnd as (Hndi & Hdis & _).
  assert (Hnames : NoDup (Name <$> init)).
  { apply NoDup_fmap_2_strong; [|done]. intros x y Hx Hy.
    apply inFS_name_inj; apply Hall, elem_of_app; by left. }
  assert (Hsub : list_to_set (Name <$> init) ⊆ dom (frames fs)).
  { intros n Hn. apply elem_of_list_to_set, list_elem_of_fmap in Hn as (x & -> & Hx).
    apply elem_of_dom.
    assert (Hxin : inFS fs x) by (apply Hall, elem_of_app; by left).
    unfold inFS, frameByName in Hxin.
    destruct (decide (Name x = World)); [|by rewrite Hxin].
    exfalso. apply (Hdis x Hx). simplify_eq. left. }
  apply subseteq_size in Hsub.
  rewrite size_list_to_set, length_fmap, size_dom in Hsub by done.
  rewrite length_app. unfold enoughFuel. simpl. lia.
Qed.

End TracebackFacts.

(** ** Pivot search *)

Section PivotFacts.
Import RefFrame Chain.

Lemma findPivotFrame_scan l1 l2 :
  findPivotFrame l1 l2 =
    match (if decide (length l2 < length l1) then scanFor l2 l1 else scanFor l1 l2) with
    | Some p => inr p
    | None => inl errNoPath
    end.
Proof. unfold findPivotFrame, scanFor. by destruct (decide _). Qed.

Lemma nameSet_elem (short : list Frame) (x : Frame) :
  bool_decide (Name x ∈@{gset string} list_to_set (Name <$> short)) = true ↔
  ∃ y, y ∈ short ∧ Name y = Name x.
Proof.
  rewrite bool_decide_eq_true, elem_of_list_to_set, list_elem_of_fmap.
  split; intros (y & ? & ?); by exists y.
Qed.

Lemma scanFor_disjoint short long :
  (∀ x y, x ∈ short → y ∈ long → Name x ≠ Name y) → scanFor short long = None.
Proof.
  intros Hdis. unfold scanFor.
  destruct (find _ long) as [p|] eqn:Hfind; [|done].
  apply find_split in Hfind as (pre & suf & -> & Hp & _).
  apply nameSet_elem in Hp as (y & Hy & Hn).
  exfalso. apply (Hdis y p Hy); [|done]. apply elem_of_app. right. left.
Qed.

Context (fs : FrameSystem) (Hwf : treeStructured fs).

Lemma nameSet_inFS short x :
  Forall (inFS fs) short → inFS fs x →
  bool_decide (Name x ∈@{gset string} list_to_set (Name <$> short)) = true ↔ x ∈ short.
Proof.
  intros Hall Hx. rewrite nameSet_elem. rewrite Forall_forall in Hall. split.
  - intros (y & Hy & Hn). by rewrite <- (inFS_name_inj fs y x (Hall y Hy) Hx Hn).
  - intros Hin. by exists x.
Qed.

(** Two chains of one tree split at one frame into unshared prefixes and a
    common suffix, and the scan finds that frame from either side. *)
Lemma chains_split k f g l1 l2 :
  inFS fs f → inFS fs g →
  traceback fs k f = Some l1 → traceback fs k g = Some l2 →
  ∃ p pre1 pre2 suf,
    l1 = pre1 ++ p :: suf ∧ l2 = pre2 ++ p :: suf ∧
    (∀ x, x ∈ pre1 → x ∉ l2) ∧ (∀ y, y ∈ pre2 → y ∉ l1) ∧
    scanFor l2 l1 = Some p ∧ scanFor l1 l2 = Some p.
Proof.
  intros Hf Hg H1 H2.
  pose proof (traceback_inFS fs Hwf _ _ _ Hf H1) as Hall1.
  pose proof (traceback_inFS fs Hwf _ _ _ Hg H2) as Hall2.
  pose proof Hall1 as Hall1'. pose proof Hall2 as Hall2'.
  rewrite Forall_forall in Hall1', Hall2'.
  pose proof (traceback_world_in fs Hwf _ _ _ Hf H1) as Hw1.
  pose proof (traceback_world_in fs Hwf _ _ _ Hg H2) as Hw2.
  destruct (scanFor l2 l1) as [p|] eqn:Hscan; unfold scanFor in Hscan.
  2:{ pose proof (find_none_all _ _ Hscan _ Hw1) as Hfalse.
      apply (nameSet_inFS l2) in Hw2; [congruence|done|by apply inFS_world]. }
  apply find_split in Hscan as (pre1 & suf & -> & Hp & Hpre1).
  assert (Hp1 : p ∈ pre1 ++ p :: suf) by (apply elem_of_app; right; left).
  assert (Hp2 : p ∈ l2) by (apply (nameSet_inFS l2); auto).
  apply list_elem_of_split in Hp2 as (pre2 & suf2 & ->).
  pose proof (traceback_suffix fs _ _ _ _ _ H1) as Hs1.
  pose proof (traceback_suffix fs _ _ _ _ _ H2) as Hs2.
  assert (suf2 = suf) as -> by congruence. clear Hs2.
  assert (Hn1 : ∀ x, x ∈ pre1 → x ∉ pre2 ++ p :: suf).
  { intros x Hx Hin. apply (nameSet_inFS (pre2 ++ p :: suf)) in Hin; [|done|].
    - rewrite (Hpre1 x Hx) in Hin. done.
    - apply Hall1'. apply elem_of_app. by left. }
  assert (Hn2 : ∀ y, y ∈ pre2 → y ∉ pre1 ++ p :: suf).
  { intros y Hy [Hin|Hin]%elem_of_app.
    - apply (Hn1 y Hin). apply elem_of_app. by left.
    - pose proof (traceback_NoDup fs _ _ _ H2) as Hnd.
      apply NoDup_app in Hnd as (_ & Hdis & _). by apply (Hdis y). }
  exists p, pre1, pre2, suf. split; [done|]. split; [done|].
  split; [done|]. split; [done|]. split.
  - done.
  - unfold scanFor. apply find_first.
    + apply (nameSet_inFS (pre1 ++ p :: suf)); auto.
    + intros y Hy. apply not_true_is_false. intros Hin.
      apply (nameSet_inFS (pre1 ++ p :: suf)) in Hin; [by apply (Hn2 y)|done|].
      apply Hall2'. apply elem_of_app. by left.
Qed.

End PivotFacts.

(** C1. In a tree-structured frame system, for the ancestor chains [l1]
    and [l2] of two frames, [findPivotFrame] returns a frame [p] of both
    chains, and the same frame when the lists are swapped; the chains
    split at [p] into prefixes that share no frame name with the other
    chain and the common suffix of the ancestors of [p], so [p] is the
    lowest common ancestor, and no other common ancestor has all common
    ancestors among its own ancestors. On two lists that share no frame
    name the search fails with the no-path error. *)
Theorem findPivotFrame_lowest_common_ancestor
    (fs : RefFrame.FrameSystem) (f g : Frame) (l1 l2 : list Frame) :
  RefFrame.treeStructured fs →
  RefFrame.frameByName fs (Name f) = Some f →
  RefFrame.frameByName fs (Name g) = Some g →
  RefFrame.TracebackFrame fs f = inr l1 →
  RefFrame.TracebackFrame fs g = inr l2 →
  (∃ p pre1 pre2 suf,
     Chain.findPivotFrame l1 l2 = inr p ∧
     Chain.findPivotFrame l2 l1 = inr p ∧
     l1 = pre1 ++ p :: suf ∧ l2 = pre2 ++ p :: suf ∧
     RefFrame.TracebackFrame fs p = inr (p :: suf) ∧
     (∀ x y, x ∈ pre1 → y ∈ l2 → Name x ≠ Name y) ∧
     (∀ x y, x ∈ l1 → y ∈ pre2 → Name x ≠ Name y) ∧
     (∀ p' l', p' ∈ l1 → p' ∈ l2 →
               RefFrame.TracebackFrame fs p' = inr l' →
               (∀ q, q ∈ l1 → q ∈ l2 → q ∈ l') → p' = p)) ∧
  (∀ m1 m2 : list Frame,
     (∀ x y, x ∈ m1 → y ∈ m2 → Name x ≠ Name y) →
     Chain.findPivotFrame m1 m2 = inl errNoPath).
Proof.
  intros Hwf Hf Hg H1%TracebackFrame_inr H2%TracebackFrame_inr. split.
  - destruct (chains_split fs Hwf _ f g l1 l2 Hf Hg H1 H2)
      as (p & pre1 & pre2 & suf & -> & -> & Hn1 & Hn2 & Hs1 & Hs2).
    pose proof (traceback_inFS fs Hwf _ _ _ Hf H1) as Hall1.
    pose proof (traceback_inFS fs Hwf _ _ _ Hg H2) as Hall2.
    rewrite Forall_forall in Hall1, Hall2.
    assert (Hp1 : p ∈ pre1 ++ p :: suf) by (apply elem_of_app; right; left).
    assert (Hp2 : p ∈ pre2 ++ p :: suf) by (apply elem_of_app; right; left).
    pose proof (traceback_suffix fs _ _ _ _ _ H1) as Hsuf.
    exists p, pre1, pre2, suf.
    split; [rewrite findPivotFrame_scan; destruct (decide _); by rewrite ?Hs1, ?Hs2|].
    split; [rewrite findPivotFrame_scan; destruct (decide _); by rewrite ?Hs1, ?Hs2|].
    split; [done|]. split; [done|]. split; [|split; [|split]].
    + unfold RefFrame.TracebackFrame. rewrite (Hall1 p Hp1), Hsuf. done.
    + intros x y Hx Hy Hn. apply (Hn1 x Hx).
      rewrite (inFS_name_inj fs x y); auto. apply Hall1. apply elem_of_app. by left.
    + intros x y Hx Hy Hn. apply (Hn2 y Hy).
      rewrite <- (inFS_name_inj fs x y); auto. apply Hall2. apply elem_of_app. by left.
    + intros p' l' Hp'1 Hp'2 Hl'%TracebackFrame_inr Hlow.
      apply elem_of_app in Hp'1 as [Hp'1|Hp'1]; [by destruct (Hn1 p' Hp'1)|].
      apply elem_of_cons in Hp'1 as [->|Hp'1]; [done|]. exfalso.
      apply list_elem_of_split in Hp'1 as (a & b & ->).
      pose proof (traceback_suffix fs _ _ (p :: a) p' b Hsuf) as Hb.
      rewrite Hb in Hl'. simplify_eq.
      pose proof (traceback_NoDup fs _ _ _ Hsuf) as Hnd.
      apply NoDup_cons in Hnd as [Hnotin _].
      apply Hnotin. apply elem_of_app. right.
      specialize (Hlow p Hp1 Hp2).
      exact Hlow.
  - intros m1 m2 Hdis. rewrite findPivotFrame_scan.
    destruct (decide _).
    + rewrite scanFor_disjoint; [done|]. intros x y Hx Hy Hn.
      by apply (Hdis y x).
    + by rewrite scanFor_disjoint.
Qed.

Lemma findPivotFrame_lowest_common_ancestor_witness :
  (∃ p pre1 pre2 suf,
     Chain.findPivotFrame Samples.gripperChain Samples.cameraChain = inr p ∧
     Chain.findPivotFrame Samples.cameraChain Samples.gripperChain = inr p ∧
     Samples.gripperChain = pre1 ++ p :: suf ∧
     Samples.cameraChain = pre2 ++ p :: suf ∧
     RefFrame.TracebackFrame Samples.robot p = inr (p :: suf) ∧
     (∀ x y, x ∈ pre1 → y ∈ Samples.cameraChain → Name x ≠ Name y) ∧
     (∀ x y, x ∈ Samples.gripperChain → y ∈ pre2 → Name x ≠ Name y) ∧
     (∀ p' l', p' ∈ Samples.gripperChain → p' ∈ Samples.cameraChain →
               RefFrame.TracebackFrame Samples.robot p' = inr l' →
               (∀ q, q ∈ Samples.gripperChain → q ∈ Samples.cameraChain → q ∈ l') →
               p' = p)) ∧
  (∀ m1 m2 : list Frame,
     (∀ x y, x ∈ m1 → y ∈ m2 → Name x ≠ Name y) →
     Chain.findPivotFrame m1 m2 = inl errNoPath).
Proof.
  apply (findPivotFrame_lowest_common_ancestor
           Samples.robot Samples.gripper Samples.camera).
  - apply (bool_decide_unpack (RefFrame.treeStructured Samples.robot)).
    vm_compute. exact I.
  - vm_compute. reflexivity.
  - vm_compute. reflexivity.
  - vm_compute. reflexivity.
  - vm_compute. reflexivity.
Defined.

(** ** Motion chain construction *)

Section ChainFacts.
Import RefFrame Chain.

Lemma untilPivot_split pivot pre suf :
  (∀ x, x ∈ pre → sameFrame x pivot = false) →
  untilPivot pivot (pre ++ pivot :: suf) = pre.
Proof.
  induction pre as [|a pre IH]; intros Hpre; simpl.
  - unfold sameFrame. by rewrite Nat.eqb_refl.
  - rewrite (Hpre a) by left. f_equal. apply IH.
    intros x Hx. apply Hpre. by right.
Qed.

Lemma find_reverse_last {A} (P : A → bool) (pre suf : list A) m :
  P m = true → (∀ x, x ∈ suf → P x = false) →
  find P (reverse (pre ++ m :: suf)) = Some m.
Proof.
  intros Hm Hsuf. rewrite reverse_app, reverse_cons, <- app_assoc. simpl.
  apply find_first; [done|]. intros x Hx. apply Hsuf.
  by apply elem_of_reverse.
Qed.

Lemma find_all_false {A} (P : A → bool) (l : list A) :
  (∀ x, x ∈ l → P x = false) → find P l = None.
Proof.
  intros Hall. destruct (find P l) as [p|] eqn:Hfind; [|done].
  apply find_split in Hfind as (pre & suf & -> & Hp & _).
  rewrite Hall in Hp; [done|]. apply elem_of_app. right. left.
Qed.

Lemma negb_noDoF f : negb (noDoF f) = false ↔ DoF f = [].
Proof. unfold noDoF. destruct (DoF f); simpl; split; intros; congruence. Qed.

End ChainFacts.

(** C4, as the code has it. The chains run from the frame itself to the
    root, and the closure scans a chain from its last index down: it roots
    the moving subsystem at the frame with degrees of freedom that is
    nearest to the root end of the chain; when no frame of the chain has
    degrees of freedom the moving subsystem is the empty frame system. *)
Theorem movingFSOf_rootmost (fs : RefFrame.FrameSystem) (frameList : list Frame) :
  (Forall (λ f, DoF f = []) frameList →
   Chain.movingFSOf fs frameList = inr (RefFrame.NewEmptyFrameSystem "")) ∧
  (∀ pre moveF suf,
     frameList = pre ++ moveF :: suf → DoF moveF ≠ [] →
     Forall (λ f, DoF f = []) suf →
     Chain.movingFSOf fs frameList = RefFrame.FrameSystemSubset fs moveF).
Proof.
  unfold Chain.movingFSOf. split.
  - intros Hall. rewrite Forall_forall in Hall.
    rewrite find_all_false; [done|].
    intros x Hx. apply negb_noDoF, Hall. by apply elem_of_reverse.
  - intros pre moveF suf -> Hm Hsuf. rewrite Forall_forall in Hsuf.
    rewrite (find_reverse_last _ pre suf moveF); [done| |].
    + apply noDoF_false in Hm. by rewrite Hm.
    + intros x Hx. apply negb_noDoF. by apply Hsuf.
Qed.

Lemma movingFSOf_rootmost_witness :
  Chain.movingFSOf Samples.robot [Samples.gripper] =
    inr (RefFrame.NewEmptyFrameSystem "") ∧
  Chain.movingFSOf Samples.robot Samples.wristChain =
    RefFrame.FrameSystemSubset Samples.robot Samples.arm.
Proof.
  split.
  - apply (movingFSOf_rootmost Samples.robot [Samples.gripper]).
    repeat constructor.
  - apply (movingFSOf_rootmost Samples.robot Samples.wristChain)
      with (pre := [Samples.wrist]) (suf := [Samples.base; Samples.root]).
    + reflexivity.
    + discriminate.
    + repeat constructor.
Defined.

(** C4 as stated fails: on the chain of the wrist the first frame with
    degrees of freedom from the leaf is the wrist, and the code roots the
    moving subsystem at the arm, which the subsystem of the wrist does
    not contain. *)
Lemma movingFSOf_not_leaf_first :
  find (λ f, negb (noDoF f)) Samples.wristChain = Some Samples.wrist ∧
  (∃ sys, Chain.movingFSOf Samples.robot Samples.wristChain = inr sys ∧
          RefFrame.frameByName sys "arm" = Some Samples.arm) ∧
  (∃ sys, Chain.movingFSOf_leafFirst Samples.robot Samples.wristChain = inr sys ∧
          RefFrame.frameByName sys "arm" = None) ∧
  Chain.movingFSOf Samples.robot Samples.wristChain ≠
    Chain.movingFSOf_leafFirst Samples.robot Samples.wristChain.
Proof.
  assert (H1 : ∃ sys, Chain.movingFSOf Samples.robot Samples.wristChain = inr sys ∧
          RefFrame.frameByName sys "arm" = Some Samples.arm).
  { eexists. split; [reflexivity|]. vm_compute. reflexivity. }
  assert (H2 : ∃ sys, Chain.movingFSOf_leafFirst Samples.robot Samples.wristChain = inr sys ∧
          RefFrame.frameByName sys "arm" = None).
  { eexists. split; [reflexivity|]. vm_compute. reflexivity. }
  split; [reflexivity|]. split; [done|]. split; [done|].
  destruct H1 as (s1 & E1 & L1), H2 as (s2 & E2 & L2).
  rewrite E1, E2. intros [= ->]. congruence.
Qed.



(** ** Planning result promise *)

(** C9, as the code has it. A promise made with a precomputed sequence of
    nodes that is not empty returns that sequence from [result] at once:
    the call receives nothing from the channel, whatever the channel is,
    also when it is nil or no worker will ever send. *)
Theorem result_precomputed {node : Type}
    (l : list node) (fut : Promise.chanState node) :
  l ≠ [] →
  Promise.result (Promise.mkPromise (Some l) fut) = Promise.Return (Some l, None) ∧
  Promise.run (Promise.mkPromise (Some l) fut) = Promise.Returns (Some l, None).
Proof.
  intros Hl. destruct l as [|n l]; [done|].
  unfold Promise.run, Promise.result. simpl. done.
Qed.

Lemma result_precomputed_witness :
  Promise.result (Promise.mkPromise (Some [1; 2]) Promise.NilChan)
    = Promise.Return (Some [1; 2], None) ∧
  Promise.run (Promise.mkPromise (Some [1; 2]) Promise.NilChan)
    = Promise.Returns (Some [1; 2], None).
Proof. apply (result_precomputed [1; 2] Promise.NilChan). discriminate. Defined.

(** C9 as stated fails for the empty sequence: a promise made with a
    precomputed sequence without nodes goes to the channel, and blocks
    when no worker sends. *)
Lemma result_precomputed_empty_receives :
  (∃ k, Promise.result (Promise.mkPromise (node:=nat) (Some []) Promise.NilChan)
        = Promise.Receive k) ∧
  Promise.run (Promise.mkPromise (node:=nat) (Some []) Promise.NilChan) = Promise.Blocks ∧
  Promise.run (Promise.mkPromise (node:=nat) (Some []) Promise.Waiting) = Promise.Blocks.
Proof. split; [eexists; reflexivity|]. split; reflexivity. Qed.

(** ** The check for PTG frames *)

Section PTGFacts.
Import RefFrame Chain Chains.

Lemma checkFrames_noPTG n pre rest name wr :
  noPTG pre →
  checkFrames n (pre ++ rest) false name wr = checkFrames n rest false name wr.
Proof.
  induction pre as [|a pre IH]; intros Hpre; simpl; [done|].
  rewrite (Hpre a) by left.
  assert (IH' : checkFrames n (pre ++ rest) false name wr
                = checkFrames n rest false name wr).
  { apply IH. intros f Hf. apply Hpre. by right. }
  by destruct (decide (0 < length (DoF a))).
Qed.

Lemma checkFrames_rigid n fr useTP name wr :
  rigid fr → checkFrames n fr useTP name wr = inr (useTP, name, wr).
Proof.
  induction fr as [|a fr IH]; intros Hfr; simpl; [done|].
  destruct (Hfr a) as [Hp Hd]; [left|]. rewrite Hp, Hd. simpl.
  apply IH. intros f Hf. apply Hfr. by right.
Qed.

Lemma checkFrames_rigid_app n mid rest useTP name wr :
  rigid mid →
  checkFrames n (mid ++ rest) useTP name wr = checkFrames n rest useTP name wr.
Proof.
  induction mid as [|a mid IH]; intros Hmid; simpl; [done|].
  destruct (Hmid a) as [Hp Hd]; [left|]. rewrite Hp, Hd. simpl.
  apply IH. intros f Hf. apply Hmid. by right.
Qed.

(** With several chains, the frames of a chain pass the check, with
    nothing changed, exactly when none of them is a PTG frame. *)
Lemma checkFrames_several n fr name wr :
  1 < n →
  checkFrames n fr false name wr =
    if existsb isPTGProvider fr then inl errMixedFrameTypes
    else inr (false, name, wr).
Proof.
  intros Hn. induction fr as [|a fr IH]; simpl; [done|].
  destruct (isPTGProvider a); simpl.
  - by rewrite decide_True.
  - by destruct (decide (0 < length (DoF a))).
Qed.

Lemma checkChains_several n chains name :
  1 < n →
  (∃ chain f, chain ∈ chains ∧ f ∈ frames chain ∧ isPTGProvider f = true) →
  checkChains n chains false name = inl errMixedFrameTypes.
Proof.
  intros Hn. induction chains as [|c chains IH]; intros (chain & f & Hc & Hf & Hp).
  - by apply elem_of_nil in Hc.
  - simpl. rewrite checkFrames_several by done.
    destruct (existsb isPTGProvider (frames c)) eqn:Hex; [done|]. simpl.
    apply elem_of_cons in Hc as [->|Hc].
    + exfalso. assert (existsb isPTGProvider (frames c) = true); [|congruence].
      apply existsb_exists. exists f. split; [|done]. by apply list_elem_of_In.
    + rewrite IH; [done|]. by exists chain, f.
Qed.

End PTGFacts.

(** C5, as the code has it. With the chains of the goals built: when there
    are two chains or more and a PTG frame is in the frame span of one of
    them, construction fails with the mixed-frame-types error; when the
    span of the only chain has two PTG frames with only rigid frames
    between them, it fails with the error that only one PTG frame can be
    planned for; when the span of the only chain has one PTG frame and
    its other frames are rigid, construction succeeds with [useTPspace]
    set, [ptgFrameName] the name of that frame and the chain world-rooted. *)
Theorem motionChainsFromPlanState_ptg {Pose : Type}
    (fs : RefFrame.FrameSystem)
    (posesRange : list (string * Chains.PoseInFrame Pose))
    (configurationRange : list (string * list Input))
    (poseChains confChains : list Chain.motionChain) :
  Chains.chainsFromGoals fs ((λ e, (e.1, Chains.parent e.2)) <$> posesRange)
    = inr poseChains →
  Chains.chainsFromGoals fs ((λ e, (e.1, e.1)) <$> configurationRange)
    = inr confChains →
  (1 < length (poseChains ++ confChains) →
   (∃ chain f, chain ∈ poseChains ++ confChains ∧ f ∈ Chain.frames chain ∧
               isPTGProvider f = true) →
   Chains.motionChainsFromPlanState fs posesRange configurationRange
     = inl errMixedFrameTypes) ∧
  (∀ chain pre p mid q suf,
     poseChains ++ confChains = [chain] →
     Chain.frames chain = pre ++ p :: mid ++ q :: suf →
     isPTGProvider p = true → isPTGProvider q = true →
     noPTG pre → rigid mid →
     Chains.motionChainsFromPlanState fs posesRange configurationRange
       = inl errOnlyOnePTG) ∧
  (∀ chain pre p suf,
     poseChains ++ confChains = [chain] →
     Chain.frames chain = pre ++ p :: suf →
     isPTGProvider p = true → rigid pre → rigid suf →
     Chains.motionChainsFromPlanState fs posesRange configurationRange
       = inr (Chains.mkChains [Chains.setWorldRooted true chain] true (Name p))).
Proof.
  intros Hp Hc. unfold Chains.motionChainsFromPlanState. rewrite Hp, Hc. simpl.
  unfold Chains.checkInner. split; [|split].
  - intros Hn Hex. rewrite decide_False by lia.
    by rewrite checkChains_several.
  - intros chain pre p mid q suf -> Hfr Hpp Hpq Hpre Hmid. simpl.
    rewrite Hfr, checkFrames_noPTG by done. simpl. rewrite Hpp. simpl.
    rewrite checkFrames_rigid_app by done. simpl. rewrite Hpq. done.
  - intros chain pre p suf -> Hfr Hpp Hpre Hsuf. simpl.
    rewrite Hfr, checkFrames_noPTG by (intros f Hf; by apply Hpre).
    simpl. rewrite Hpp. simpl.
    rewrite checkFrames_rigid by done. done.
Qed.

Lemma motionChainsFromPlanState_ptg_witness :
  Chains.motionChainsFromPlanState Samples.rover
    [("base", Samples.inWorld 0); ("mast", Samples.inWorld 1)] []
    = inl errMixedFrameTypes ∧
  Chains.motionChainsFromPlanState Samples.towed [("trailer", Samples.inWorld 0)] []
    = inl errOnlyOnePTG ∧
  (∃ chain,
     Chains.motionChainsFromPlanState Samples.rover [("base", Samples.inWorld 0)] []
       = inr (Chains.mkChains [Chains.setWorldRooted true chain] true "base")).
Proof.
  split; [|split].
  - destruct (Chains.chainsFromGoals Samples.rover
                ((λ e, (e.1, Chains.parent e.2)) <$>
                   [("base", Samples.inWorld 0); ("mast", Samples.inWorld 1)]))
      as [e|pc] eqn:Hpc; [vm_compute in Hpc; discriminate|].
    apply (motionChainsFromPlanState_ptg Samples.rover _ [] pc [] Hpc eq_refl).
    + vm_compute in Hpc. injection Hpc as <-. simpl. lia.
    + vm_compute in Hpc. injection Hpc as <-.
      eexists _, Samples.ptgBase. split; [left|]. split; [left|reflexivity].
  - destruct (Chains.chainsFromGoals Samples.towed
                ((λ e, (e.1, Chains.parent e.2)) <$> [("trailer", Samples.inWorld 0)]))
      as [e|pc] eqn:Hpc; [vm_compute in Hpc; discriminate|].
    pose proof (motionChainsFromPlanState_ptg Samples.towed _ [] pc [] Hpc eq_refl)
      as (_ & H2 & _).
    vm_compute in Hpc. injection Hpc as <-.
    eapply (H2 _ [] Samples.trailer [] Samples.tug [Samples.root]).
    + reflexivity.
    + reflexivity.
    + reflexivity.
    + reflexivity.
    + intros f Hf. by apply elem_of_nil in Hf.
    + intros f Hf. by apply elem_of_nil in Hf.
  - destruct (Chains.chainsFromGoals Samples.rover
                ((λ e, (e.1, Chains.parent e.2)) <$> [("base", Samples.inWorld 0)]))
      as [e|pc] eqn:Hpc; [vm_compute in Hpc; discriminate|].
    pose proof (motionChainsFromPlanState_ptg Samples.rover _ [] pc [] Hpc eq_refl)
      as (_ & _ & H3).
    vm_compute in Hpc. injection Hpc as <-.
    eexists. eapply (H3 _ [] Samples.ptgBase [Samples.root]).
    + reflexivity.
    + reflexivity.
    + reflexivity.
    + intros f Hf. by apply elem_of_nil in Hf.
    + intros f Hf. apply list_elem_of_singleton in Hf as ->. by split.
Defined.

(** C5 as stated fails twice. The goal on the trailer has two PTG frames
    in its chain and the error is not the mixed-frame-types error; the
    goal on the cart gives one chain, with the only PTG frame of the
    system, and construction fails, because the slider comes after the
    cart in the frame span. *)
Lemma motionChainsFromPlanState_ptg_counterexample :
  (Chains.motionChainsFromPlanState Samples.towed [("trailer", Samples.inWorld 0)] []
     = inl errOnlyOnePTG ∧ errOnlyOnePTG ≠ errMixedFrameTypes) ∧
  (∃ chain,
     Chains.chainsFromGoals Samples.carted [("cart", World)] = inr [chain] ∧
     Chain.frames chain = [Samples.cart; Samples.slider; Samples.root] ∧
     filter (λ f, isPTGProvider f = true) (RefFrame.allFrames Samples.carted)
       = [Samples.cart] ∧
     Chains.motionChainsFromPlanState Samples.carted [("cart", Samples.inWorld 0)] []
       = inl errMixedFrameTypes).
Proof.
  split; [split; [vm_compute; reflexivity|discriminate]|].
  eexists. split; [vm_compute; reflexivity|].
  split; [reflexivity|]. split; vm_compute; reflexivity.
Qed.

(** ** Geometry partition *)

Section GeometryFacts.
Import RefFrame Chain Chains.
Context {Geometry : Type}.


End GeometryFacts.



(** ** Goal translation *)

Section TranslateFacts.
Import RefFrame Chain Chains.
Context {Pose : Type}.
Context (Transform :
  FrameSystem → FrameSystemInputs → PoseInFrame Pose → string → error + PoseInFrame Pose).

Lemma translate_loop_spec chains fs start goalPoses alteredGoals :
  ∀ (σ σ' : gmap nat (gmap string (PoseInFrame Pose))) r gp m,
  alteredGoals ≠ goalPoses →
  σ !! goalPoses = Some gp → σ !! alteredGoals = Some m →
  translate_loop Transform chains fs start goalPoses alteredGoals σ = (σ', r) →
  (∀ l, l ≠ alteredGoals → σ' !! l = σ !! l) ∧
  ∃ m', σ' !! alteredGoals = Some m' ∧
    match r with
    | Some err =>
        ∃ chain pif, chain ∈ chains ∧ worldRooted chain = true ∧
                     gp !! solveFrameName chain = Some pif ∧
                     Transform fs start pif World = inl err
    | None =>
        (∀ name, gp !! name = None → m' !! name = m !! name) ∧
        (∀ name, (∀ c, c ∈ chains → solveFrameName c ≠ name) →
                 m' !! name = m !! name) ∧
        (∀ pre chain suf pif,
           chains = pre ++ chain :: suf →
           (∀ c, c ∈ suf → solveFrameName c ≠ solveFrameName chain) →
           gp !! solveFrameName chain = Some pif →
           if worldRooted chain
           then ∃ tf, Transform fs start pif World = inr tf ∧
                      m' !! solveFrameName chain = Some tf
           else m' !! solveFrameName chain = Some pif)
    end.
Proof.
  induction chains as [|c chains IH]; intros σ σ' r gp m Hne Hgp Hm Hrun;
    simpl in Hrun.
  - simplify_eq. split; [done|]. exists m. split; [done|].
    split; [done|]. split; [done|].
    intros pre chain suf pif Heq. by destruct pre.
  - rewrite Hgp in Hrun. simpl in Hrun.
    (* the store after the step of [c], and the new map in it *)
    assert (Hstep : ∀ v,
      (alter (insert (solveFrameName c) v) alteredGoals σ) !! goalPoses = Some gp ∧
      (alter (insert (solveFrameName c) v) alteredGoals σ) !! alteredGoals
        = Some (<[solveFrameName c := v]> m) ∧
      ∀ l, l ≠ alteredGoals →
           (alter (insert (solveFrameName c) v) alteredGoals σ) !! l = σ !! l).
    { intros v. split; [|split].
      - by rewrite lookup_alter_ne.
      - by rewrite lookup_alter_eq, Hm.
      - intros l Hl. by rewrite lookup_alter_ne. }
    destruct (gp !! solveFrameName c) as [goalPif|] eqn:Hgoal.
    + destruct (worldRooted c) eqn:Hwr.
      * destruct (Transform fs start goalPif World) as [err|tf] eqn:HT.
        -- simplify_eq. split; [done|]. exists m. split; [done|].
           exists c, goalPif. split; [left|done].
        -- destruct (Hstep tf) as (Hgp1 & Hm1 & Hother).
           destruct (IH _ _ _ _ _ Hne Hgp1 Hm1 Hrun) as (Hfar & m' & Hm' & Hr).
           split; [intros l Hl; rewrite Hfar by done; by apply Hother|].
           exists m'. split; [done|]. destruct r as [err|].
           ++ destruct Hr as (chain & pif & Hin & ?). exists chain, pif.
              split; [by right|done].
           ++ destruct Hr as (R1 & R2 & R3). split; [|split].
              ** intros name Hnone. rewrite R1 by done.
                 apply lookup_insert_ne. congruence.
              ** intros name Hnames. rewrite R2 by (intros; apply Hnames; by right).
                 apply lookup_insert_ne. apply Hnames. left.
              ** intros pre chain suf pif Heq Hsuf Hpif.
                 destruct pre as [|a pre]; simpl in Heq; simplify_eq.
                 --- rewrite Hwr. exists tf. split; [done|].
                     rewrite R2 by done. apply lookup_insert_eq.
                 --- by apply (R3 pre chain suf pif).
      * destruct (Hstep goalPif) as (Hgp1 & Hm1 & Hother).
        destruct (IH _ _ _ _ _ Hne Hgp1 Hm1 Hrun) as (Hfar & m' & Hm' & Hr).
        split; [intros l Hl; rewrite Hfar by done; by apply Hother|].
        exists m'. split; [done|]. destruct r as [err|].
        -- destruct Hr as (chain & pif & Hin & ?). exists chain, pif.
           split; [by right|done].
        -- destruct Hr as (R1 & R2 & R3). split; [|split].
           ++ intros name Hnone. rewrite R1 by done.
              apply lookup_insert_ne. congruence.
           ++ intros name Hnames. rewrite R2 by (intros; apply Hnames; by right).
              apply lookup_insert_ne. apply Hnames. left.
           ++ intros pre chain suf pif Heq Hsuf Hpif.
              destruct pre as [|a pre]; simpl in Heq; simplify_eq.
              ** rewrite Hwr. rewrite R2 by done. apply lookup_insert_eq.
              ** by apply (R3 pre chain suf pif).
    + destruct (IH _ _ _ _ _ Hne Hgp Hm Hrun) as (Hfar & m' & Hm' & Hr).
      split; [done|]. exists m'. split; [done|]. destruct r as [err|].
      * destruct Hr as (chain & pif & Hin & ?). exists chain, pif.
        split; [by right|done].
      * destruct Hr as (R1 & R2 & R3). split; [done|]. split.
        -- intros name Hnames. apply R2. intros; apply Hnames; by right.
        -- intros pre chain suf pif Heq Hsuf Hpif.
           destruct pre as [|a pre]; simpl in Heq; simplify_eq.
           by apply (R3 pre chain suf pif).
Qed.

End TranslateFacts.

(** C7, as the code has it. The call writes no map that was in the store
    before it, so the goal it was given is as it was. Without a map of
    poses the goal is returned as it is. With one, the call fails with
    the error of the transform of a pose goal of a world-rooted chain, or
    it returns a goal with the configuration of the input and a new map
    of poses. In the new map, the entry of a solve frame with a pose goal
    is decided by the last chain with that solve frame: it is the goal
    transformed to World at the start configuration when that chain is
    world-rooted, and the goal itself when it is not; there is no entry
    for a name without pose goal or without chain. *)
Theorem translateGoalsToWorldPosition_spec {Pose : Type}
    (Transform : RefFrame.FrameSystem → FrameSystemInputs →
                 Chains.PoseInFrame Pose → string → error + Chains.PoseInFrame Pose)
    (mC : Chains.motionChains) (fs : RefFrame.FrameSystem)
    (start : FrameSystemInputs) (goal : Chains.PlanState)
    (σ σ' : gmap nat (gmap string (Chains.PoseInFrame Pose)))
    (res : error + Chains.PlanState) :
  (∀ l, Chains.poses goal = Some l → is_Some (σ !! l)) →
  Chains.translateGoalsToWorldPosition Transform mC fs start goal σ = (σ', res) →
  (∀ l m, σ !! l = Some m → σ' !! l = Some m) ∧
  match Chains.poses goal with
  | None => res = inr goal
  | Some goalPoses =>
      ∃ gp, σ !! goalPoses = Some gp ∧
      match res with
      | inl err =>
          ∃ chain pif, chain ∈ Chains.inner mC ∧ Chain.worldRooted chain = true ∧
                       gp !! Chain.solveFrameName chain = Some pif ∧
                       Transform fs start pif World = inl err
      | inr goal' =>
          ∃ alteredGoals altered,
            Chains.poses goal' = Some alteredGoals ∧
            σ !! alteredGoals = None ∧
            σ' !! alteredGoals = Some altered ∧
            Chains.configuration goal' = Chains.configuration goal ∧
            (∀ name, gp !! name = None → altered !! name = None) ∧
            (∀ name, (∀ c, c ∈ Chains.inner mC → Chain.solveFrameName c ≠ name) →
                     altered !! name = None) ∧
            (∀ pre chain suf pif,
               Chains.inner mC = pre ++ chain :: suf →
               (∀ c, c ∈ suf → Chain.solveFrameName c ≠ Chain.solveFrameName chain) →
               gp !! Chain.solveFrameName chain = Some pif →
               if Chain.worldRooted chain
               then ∃ tf, Transform fs start pif World = inr tf ∧
                          altered !! Chain.solveFrameName chain = Some tf
               else altered !! Chain.solveFrameName chain = Some pif)
      end
  end.
Proof.
  intros Hstore Hrun. unfold Chains.translateGoalsToWorldPosition in Hrun.
  set (a := fresh (dom σ)) in *.
  assert (Ha : σ !! a = None).
  { apply not_elem_of_dom. apply is_fresh. }
  assert (Hold : ∀ l m, σ !! l = Some m → (<[a := ∅]> σ) !! l = Some m).
  { intros l m Hl. rewrite lookup_insert_ne; [done|]. congruence. }
  destruct (Chains.poses goal) as [goalPoses|] eqn:Hposes.
  2:{ simplify_eq. split; done. }
  destruct (Hstore goalPoses eq_refl) as [gp Hgp].
  destruct (Chains.translate_loop _ _ _ _ _ _ _) as [σ2 r] eqn:Hloop.
  assert (Hne : a ≠ goalPoses) by congruence.
  destruct (translate_loop_spec Transform _ _ _ _ _ _ _ _ gp ∅ Hne
              (Hold _ _ Hgp) (lookup_insert_eq _ _ _) Hloop)
    as (Hfar & m' & Hm' & Hr).
  assert (Hkeep : ∀ l m, σ !! l = Some m → σ2 !! l = Some m).
  { intros l m Hl. rewrite Hfar by congruence. by apply Hold. }
  destruct r as [err|]; simplify_eq.
  - split; [done|]. exists gp. split; [done|]. done.
  - split; [done|]. exists gp. split; [done|].
    exists a, m'. split; [done|]. split; [done|]. split; [done|].
    split; [done|]. destruct Hr as (R1 & R2 & R3). split; [|split].
    + intros name Hn. by rewrite R1.
    + intros name Hn. by rewrite R2.
    + done.
Qed.

Lemma translateGoalsToWorldPosition_spec_witness :
  ∃ σ' res,
    Chains.translateGoalsToWorldPosition Samples.shift Samples.gripperFromCamera
      Samples.robot ∅ Samples.gripperGoal Samples.gripperStore = (σ', res) ∧
    (∀ l m, Samples.gripperStore !! l = Some m → σ' !! l = Some m) ∧
    match Chains.poses Samples.gripperGoal with
    | None => res = inr Samples.gripperGoal
    | Some goalPoses =>
        ∃ gp, Samples.gripperStore !! goalPoses = Some gp ∧
        match res with
        | inl err =>
            ∃ chain pif, chain ∈ Chains.inner Samples.gripperFromCamera ∧
                         Chain.worldRooted chain = true ∧
                         gp !! Chain.solveFrameName chain = Some pif ∧
                         Samples.shift Samples.robot ∅ pif World = inl err
        | inr goal' =>
            ∃ alteredGoals altered,
              Chains.poses goal' = Some alteredGoals ∧
              Samples.gripperStore !! alteredGoals = None ∧
              σ' !! alteredGoals = Some altered ∧
              Chains.configuration goal' = Chains.configuration Samples.gripperGoal ∧
              (∀ name, gp !! name = None → altered !! name = None) ∧
              (∀ name, (∀ c, c ∈ Chains.inner Samples.gripperFromCamera →
                             Chain.solveFrameName c ≠ name) →
                       altered !! name = None) ∧
              (∀ pre chain suf pif,
                 Chains.inner Samples.gripperFromCamera = pre ++ chain :: suf →
                 (∀ c, c ∈ suf → Chain.solveFrameName c ≠ Chain.solveFrameName chain) →
                 gp !! Chain.solveFrameName chain = Some pif →
                 if Chain.worldRooted chain
                 then ∃ tf, Samples.shift Samples.robot ∅ pif World = inr tf ∧
                            altered !! Chain.solveFrameName chain = Some tf
                 else altered !! Chain.solveFrameName chain = Some pif)
        end
    end.
Proof.
  destruct (Chains.translateGoalsToWorldPosition Samples.shift
              Samples.gripperFromCamera Samples.robot ∅ Samples.gripperGoal
              Samples.gripperStore) as [σ' res] eqn:Hrun.
  exists σ', res. split; [reflexivity|].
  apply (translateGoalsToWorldPosition_spec Samples.shift
           Samples.gripperFromCamera Samples.robot ∅ Samples.gripperGoal
           Samples.gripperStore σ' res).
  - intros l [= <-]. vm_compute. eexists. reflexivity.
  - exact Hrun.
Defined.

(** C7 as stated fails when two chains have one solve frame. The goals
    are a pose for the wrist in the frame of the camera and a
    configuration for the wrist: the chain of the pose goal is not
    world-rooted, the chain of the configuration goal is, and the pose
    goal comes back transformed to World. *)
Lemma translateGoalsToWorldPosition_last_chain_decides :
  ∃ mC c1 c2 σ' goal' altered,
    Chains.motionChainsFromPlanState Samples.robot
      [("wrist", Chains.mkPIF "camera" 5)] [("wrist", [mkInput 0%float])] = inr mC ∧
    Chains.inner mC = [c1; c2] ∧
    Chain.solveFrameName c1 = "wrist" ∧ Chain.goalFrameName c1 = "camera" ∧
    Chain.worldRooted c1 = false ∧
    Chain.solveFrameName c2 = "wrist" ∧ Chain.worldRooted c2 = true ∧
    Chains.translateGoalsToWorldPosition Samples.shift mC Samples.robot ∅
      Samples.gripperGoal Samples.wristStore = (σ', inr goal') ∧
    Chains.poses goal' = Some 1 ∧ σ' !! 1 = Some altered ∧
    altered !! "wrist" = Some (Chains.mkPIF World 105) ∧
    Chains.mkPIF World 105 ≠ Chains.mkPIF "camera" 5.
Proof.
  destruct (Chains.motionChainsFromPlanState Samples.robot
              [("wrist", Chains.mkPIF "camera" 5)] [("wrist", [mkInput 0%float])])
    as [e|mC] eqn:HmC; [vm_compute in HmC; discriminate|].
  vm_compute in HmC. injection HmC as <-.
  do 6 eexists. split; [reflexivity|]. split; [reflexivity|].
  do 5 (split; [reflexivity|]).
  split; [vm_compute; reflexivity|]. split; [reflexivity|].
  split; [vm_compute; reflexivity|]. split; [vm_compute; reflexivity|].
  discriminate.
Qed.

(** ** More on the linearized frame system *)

Section LinearizedMore.
Import Linearized.

Lemma totalDoF_cons f fr : totalDoF (f :: fr) = length (DoF f) + totalDoF fr.
Proof. reflexivity. Qed.

Lemma noDoF_true f : noDoF f = true ↔ length (DoF f) = 0.
Proof. unfold noDoF. apply Nat.eqb_eq. Qed.

Lemma take_add_drop {A} (l : list A) n t :
  take (n + t) l = take n l ++ take t (drop n l).
Proof.
  revert n. induction l as [|a l IH]; intros [|n]; simpl; try done.
  - by rewrite take_nil.
  - by rewrite IH.
Qed.

Lemma Value_mkInput (l : list float64) : Value <$> (mkInput <$> l) = l.
Proof. induction l as [|a l IH]; simpl; by f_equal. Qed.

(** [mapToSlice] reads only the entries of the frames with degrees of
    freedom. *)
Lemma mapToSlice_loop_ext fr x y acc :
  (∀ f, f ∈ fr → noDoF f = false → x !! Name f = y !! Name f) →
  mapToSlice_loop fr x acc = mapToSlice_loop fr y acc.
Proof.
  revert acc. induction fr as [|a fr IH]; intros acc Hxy; simpl; [done|].
  assert (Hrest : ∀ f, f ∈ fr → noDoF f = false → x !! Name f = y !! Name f)
    by (intros f Hf; apply Hxy; by right).
  destruct (noDoF a) eqn:Ha; [by apply IH|].
  rewrite <- (Hxy a) by (done || left).
  destruct (x !! Name a); [by apply IH|done].
Qed.

Lemma flattened_length fr x :
  covers fr x → length (flattened fr x) = totalDoF fr.
Proof.
  induction fr as [|a fr IH]; intros Hc; simpl; [done|].
  rewrite totalDoF_cons. destruct (noDoF a) eqn:Ha.
  - apply noDoF_true in Ha. rewrite Ha. apply IH. by eapply covers_cons.
  - destruct (Hc a) as (v & Hv & Hlen); [left|done|].
    rewrite Hv. simpl. rewrite length_app, length_fmap, Hlen.
    rewrite IH by (by eapply covers_cons). done.
Qed.

(** Whether [sliceToMap] has enough values, and where it stops when it
    has not. *)
Lemma sliceToMap_loop_total fr : ∀ s i m,
  i ≤ length s →
  (i + totalDoF fr ≤ length s → ∃ m', sliceToMap_loop fr s i m = inr m') ∧
  (length s < i + totalDoF fr →
   ∃ pre f rest, fr = pre ++ f :: rest ∧
                 i + totalDoF pre ≤ length s ∧
                 length s < i + totalDoF pre + length (DoF f) ∧
                 sliceToMap_loop fr s i m = inl (errNotEnoughValues (Name f))).
Proof.
  induction fr as [|a fr IH]; intros s i m Hi; simpl.
  - split; [eauto|]. unfold totalDoF. simpl. lia.
  - rewrite totalDoF_cons. destruct (noDoF a) eqn:Ha.
    + apply noDoF_true in Ha. rewrite Ha. simpl.
      destruct (IH s i m Hi) as [Hok Hfail]. split; [done|].
      intros Hlt. destruct (Hfail Hlt) as (pre & f & rest & -> & H1 & H2 & H3).
      exists (a :: pre), f, rest. rewrite totalDoF_cons, Ha. done.
    + rewrite fillInputs_fresh by done.
      destruct (decide (i + length (DoF a) ≤ length s)) as [Hle|Hgt].
      * destruct (IH s (i + length (DoF a)) (<[Name a:=mkInput <$> take (length (DoF a)) (drop i s)]> m) Hle)
          as [Hok Hfail].
        split; [intros; apply Hok; lia|].
        intros Hlt. destruct Hfail as (pre & f & rest & -> & H1 & H2 & H3); [lia|].
        exists (a :: pre), f, rest. rewrite totalDoF_cons.
        split; [done|]. split; [lia|]. split; [lia|done].
      * split; [lia|]. intros _. exists [], a, fr.
        split; [done|]. unfold totalDoF at 1 2. simpl. split; [lia|]. split; [lia|done].
Qed.

(** Values after the ones that are consumed play no part. *)
Lemma sliceToMap_loop_extra fr : ∀ s extra i m,
  i + totalDoF fr ≤ length s →
  sliceToMap_loop fr (s ++ extra) i m = sliceToMap_loop fr s i m.
Proof.
  induction fr as [|a fr IH]; intros s extra i m Hle; simpl; [done|].
  rewrite totalDoF_cons in Hle.
  destruct (noDoF a) eqn:Ha; [apply IH; lia|].
  rewrite !fillInputs_fresh by (rewrite ?length_app; lia).
  rewrite !decide_True by (rewrite ?length_app; lia).
  rewrite drop_app_le by lia.
  rewrite take_app_le by (rewrite length_drop; lia).
  apply IH. lia.
Qed.

(** [sliceToMap] leaves the entries of other names alone. *)
Lemma sliceToMap_loop_other fr : ∀ s i m m' n,
  sliceToMap_loop fr s i m = inr m' → ¬ movingName fr n → m' !! n = m !! n.
Proof.
  induction fr as [|a fr IH]; intros s i m m' n Hrun Hn; simpl in Hrun.
  - by simplify_eq.
  - rewrite movingName_cons in Hn. destruct (noDoF a) eqn:Ha.
    + eapply IH; [done|tauto].
    + destruct (fillInputs _ _ _ _ _) as [[fi i']|]; [|done].
      rewrite (IH _ _ _ _ n Hrun) by tauto.
      apply lookup_insert_ne. intros Heq. apply Hn. by left.
Qed.

(** The result of [sliceToMap] flattens back to the values consumed, and
    has an entry of the right length for each frame with degrees of
    freedom, when the frames have distinct names. *)
Lemma sliceToMap_loop_back fr : ∀ s i m m',
  NoDup (Name <$> fr) → i ≤ length s →
  sliceToMap_loop fr s i m = inr m' →
  covers fr m' ∧
  ∀ acc, mapToSlice_loop fr m' acc = inr (acc ++ take (totalDoF fr) (drop i s)).
Proof.
  induction fr as [|a fr IH]; intros s i m m' Hnd Hi Hrun; simpl in Hrun.
  - simplify_eq. split.
    + intros f Hf. by apply elem_of_nil in Hf.
    + intros acc. simpl. by rewrite app_nil_r.
  - simpl in Hnd. apply NoDup_cons in Hnd as [Hfresh Hnd].
    rewrite totalDoF_cons. destruct (noDoF a) eqn:Ha.
    + destruct (IH _ _ _ _ Hnd Hi Hrun) as [Hc Hback]. split.
      * intros f [->|Hf]%elem_of_cons Hd; [congruence|by apply Hc].
      * intros acc. simpl. rewrite Ha. apply noDoF_true in Ha. rewrite Ha. apply Hback.
    + rewrite fillInputs_fresh in Hrun by done.
      destruct (decide (i + length (DoF a) ≤ length s)) as [Hle|]; [|done].
      destruct (IH _ _ _ _ Hnd Hle Hrun) as [Hc Hback].
      assert (Hm' : m' !! Name a = Some (mkInput <$> take (length (DoF a)) (drop i s))).
      { rewrite (sliceToMap_loop_other _ _ _ _ _ (Name a) Hrun).
        - apply lookup_insert_eq.
        - intros (f & Hf & Hn & _). apply Hfresh. rewrite <- Hn.
          by apply list_elem_of_fmap_2. }
      split.
      * intros f [->|Hf]%elem_of_cons Hd; [|by apply Hc].
        eexists. split; [exact Hm'|].
        rewrite length_fmap, length_take, length_drop. lia.
      * intros acc. simpl. rewrite Ha, Hm'. rewrite Hback.
        f_equal. rewrite <- app_assoc. f_equal.
        rewrite Value_mkInput.
        by rewrite take_add_drop, drop_drop.
Qed.

End LinearizedMore.

Section LinearizedResults.
Import Linearized.

Lemma mapToSlice_loop_entries fr x acc :
  (∀ f, f ∈ fr → noDoF f = false → is_Some (x !! Name f)) →
  mapToSlice_loop fr x acc = inr (acc ++ flattened fr x).
Proof.
  revert acc. induction fr as [|f fr IH]; intros acc Hx; simpl.
  - by rewrite app_nil_r.
  - assert (Hrest : ∀ g, g ∈ fr → noDoF g = false → is_Some (x !! Name g))
      by (intros g Hg; apply Hx; by right).
    destruct (noDoF f) eqn:Hd; [by apply IH|].
    destruct (Hx f) as [v Hv]; [left|done|].
    rewrite Hv. simpl. rewrite IH by done. by rewrite app_assoc.
Qed.

Lemma mapToSlice_loop_first_missing pre f rest x acc :
  (∀ g, g ∈ pre → noDoF g = false → is_Some (x !! Name g)) →
  noDoF f = false → x !! Name f = None →
  mapToSlice_loop (pre ++ f :: rest) x acc = inl (errMissingInput (Name f)).
Proof.
  revert acc. induction pre as [|a pre IH]; intros acc Hc Hd Hx; simpl.
  - by rewrite Hd, Hx.
  - assert (Hrest : ∀ g, g ∈ pre → noDoF g = false → is_Some (x !! Name g))
      by (intros g Hg; apply Hc; by right).
    destruct (noDoF a) eqn:Ha; [by apply IH|].
    destruct (Hc a) as [v Hv]; [left|done|]. rewrite Hv. by apply IH.
Qed.

End LinearizedResults.

(** X1. [mapToSlice] fails at the first frame of the cached ordering that
    has degrees of freedom and no entry in the inputs, with the error
    that names this frame; entries of frames before it are not checked
    for their length. *)
Theorem mapToSlice_first_missing
    (lfs : Linearized.linearizedFrameSystem) (x : FrameSystemInputs)
    (pre : list Frame) (f : Frame) (rest : list Frame) :
  Linearized.frames lfs = pre ++ f :: rest →
  (∀ g, g ∈ pre → DoF g ≠ [] → is_Some (x !! Name g)) →
  DoF f ≠ [] → x !! Name f = None →
  Linearized.mapToSlice lfs x = inl (errMissingInput (Name f)).
Proof.
  intros Hfr Hpre Hf Hx. unfold Linearized.mapToSlice. rewrite Hfr.
  apply mapToSlice_loop_first_missing; [|by apply noDoF_false|done].
  intros g Hg Hd. apply Hpre; [done|]. by apply noDoF_false.
Qed.

Lemma mapToSlice_first_missing_witness :
  Linearized.mapToSlice Samples.lfs3 (delete "gripper" Samples.x3)
    = inl (errMissingInput "gripper").
Proof.
  apply (mapToSlice_first_missing Samples.lfs3 (delete "gripper" Samples.x3)
           [mkFrame 1 "arm" [Samples.lim; Samples.lim] false; mkFrame 2 "mount" [] false]
           (mkFrame 3 "gripper" [Samples.lim] false) []).
  - reflexivity.
  - intros g Hg Hd.
    repeat (apply elem_of_cons in Hg as [->|Hg]); [| |by apply elem_of_nil in Hg].
    + vm_compute. eexists. reflexivity.
    + by destruct Hd.
  - discriminate.
  - vm_compute. reflexivity.
Defined.

(** X2. [mapToSlice] succeeds as soon as every frame with degrees of
    freedom has an entry, whatever the lengths of the entries, and it
    reads nothing else: two inputs that agree on the names of the frames
    with degrees of freedom give the same result, so entries for fixed
    frames and for unknown names are ignored. *)
Theorem mapToSlice_reads_moving_entries
    (lfs : Linearized.linearizedFrameSystem) (x y : FrameSystemInputs) :
  (∀ f, f ∈ Linearized.frames lfs → DoF f ≠ [] → x !! Name f = y !! Name f) →
  Linearized.mapToSlice lfs x = Linearized.mapToSlice lfs y ∧
  ((∀ f, f ∈ Linearized.frames lfs → DoF f ≠ [] → is_Some (x !! Name f)) →
   Linearized.mapToSlice lfs x
     = inr (Linearized.flattened (Linearized.frames lfs) x)).
Proof.
  intros Hxy. unfold Linearized.mapToSlice. split.
  - apply mapToSlice_loop_ext. intros f Hf Hd. apply Hxy; [done|].
    by apply noDoF_false.
  - intros Hx. rewrite mapToSlice_loop_entries; [done|].
    intros f Hf Hd. apply Hx; [done|]. by apply noDoF_false.
Qed.

Lemma mapToSlice_reads_moving_entries_witness :
  Linearized.mapToSlice Samples.lfs3 Samples.x3
    = Linearized.mapToSlice Samples.lfs3 (<["mount" := [mkInput 9%float]]> Samples.x3) ∧
  ((∀ f, f ∈ Linearized.frames Samples.lfs3 → DoF f ≠ [] →
         is_Some (Samples.x3 !! Name f)) →
   Linearized.mapToSlice Samples.lfs3 Samples.x3
     = inr (Linearized.flattened (Linearized.frames Samples.lfs3) Samples.x3)).
Proof.
  apply (mapToSlice_reads_moving_entries Samples.lfs3 Samples.x3
           (<["mount" := [mkInput 9%float]]> Samples.x3)).
  intros f Hf Hd. simpl in Hf.
  repeat (apply elem_of_cons in Hf as [->|Hf]); [| | |by apply elem_of_nil in Hf].
  - vm_compute. reflexivity.
  - by destruct Hd.
  - vm_compute. reflexivity.
Defined.

(** X3. [sliceToMap] succeeds exactly when the vector has at least as
    many values as the frames of the cached ordering have degrees of
    freedom; when it has fewer, the error names the first frame that
    cannot be filled. *)
Theorem sliceToMap_enough_values
    (lfs : Linearized.linearizedFrameSystem) (floatSlice : list float64) :
  ((∃ m, Linearized.sliceToMap lfs floatSlice = inr m) ↔
   totalDoF (Linearized.frames lfs) ≤ length floatSlice) ∧
  (length floatSlice < totalDoF (Linearized.frames lfs) →
   ∃ pre f rest,
     Linearized.frames lfs = pre ++ f :: rest ∧
     totalDoF pre ≤ length floatSlice < totalDoF pre + length (DoF f) ∧
     Linearized.sliceToMap lfs floatSlice = inl (errNotEnoughValues (Name f))).
Proof.
  unfold Linearized.sliceToMap.
  destruct (sliceToMap_loop_total (Linearized.frames lfs) floatSlice 0 ∅)
    as [Hok Hfail]; [lia|].
  split; [split|].
  - intros [m Hm].
    destruct (decide (totalDoF (Linearized.frames lfs) ≤ length floatSlice)); [done|].
    destruct Hfail as (pre & f & rest & _ & _ & _ & Herr); [lia|]. congruence.
  - intros Hle. apply Hok. lia.
  - intros Hlt. destruct (Hfail Hlt) as (pre & f & rest & Hfr & H1 & H2 & Herr).
    exists pre, f, rest. split; [done|]. split; [lia|done].
Qed.

(** X4. Values after the ones that [sliceToMap] consumes are ignored. *)
Theorem sliceToMap_ignores_extra_values
    (lfs : Linearized.linearizedFrameSystem) (floatSlice extra : list float64) :
  totalDoF (Linearized.frames lfs) ≤ length floatSlice →
  Linearized.sliceToMap lfs (floatSlice ++ extra) = Linearized.sliceToMap lfs floatSlice.
Proof.
  intros Hle. unfold Linearized.sliceToMap. by apply sliceToMap_loop_extra.
Qed.

Lemma sliceToMap_ignores_extra_values_witness :
  Linearized.sliceToMap Samples.lfs3
    ([0.5%float; 0.25%float; 1%float] ++ [7%float; 8%float])
  = Linearized.sliceToMap Samples.lfs3 [0.5%float; 0.25%float; 1%float].
Proof.
  apply (sliceToMap_ignores_extra_values Samples.lfs3).
  vm_compute. lia.
Defined.

(** X5. Unflatten-then-flatten: when the frames of the cached ordering
    have distinct names and [sliceToMap] succeeds on a vector, its result
    has an entry of the right length for every frame with degrees of
    freedom, and [mapToSlice] of the result gives back the values that
    were consumed; for a vector of the exact size, the vector itself. *)
Theorem mapToSlice_sliceToMap_roundtrip
    (lfs : Linearized.linearizedFrameSystem) (floatSlice : list float64)
    (m : FrameSystemInputs) :
  NoDup (Name <$> Linearized.frames lfs) →
  Linearized.sliceToMap lfs floatSlice = inr m →
  (∀ f, f ∈ Linearized.frames lfs → DoF f ≠ [] →
        ∃ v, m !! Name f = Some v ∧ length v = length (DoF f)) ∧
  Linearized.mapToSlice lfs m
    = inr (take (totalDoF (Linearized.frames lfs)) floatSlice) ∧
  (length floatSlice = totalDoF (Linearized.frames lfs) →
   Linearized.mapToSlice lfs m = inr floatSlice).
Proof.
  intros Hnd Hrun. unfold Linearized.sliceToMap in Hrun.
  destruct (sliceToMap_loop_back _ _ _ _ _ Hnd (Nat.le_0_l _) Hrun) as [Hc Hback].
  unfold Linearized.mapToSlice. rewrite Hback, drop_0, app_nil_l. split; [|split].
  - intros f Hf Hd. apply Hc; [done|]. by apply noDoF_false.
  - done.
  - intros Hlen. by rewrite take_ge by lia.
Qed.

Lemma mapToSlice_sliceToMap_roundtrip_witness :
  (∀ f, f ∈ Linearized.frames Samples.lfs3 → DoF f ≠ [] →
        ∃ v, Samples.x3 !! Name f = Some v ∧ length v = length (DoF f)) ∧
  Linearized.mapToSlice Samples.lfs3 Samples.x3
    = inr (take (totalDoF (Linearized.frames Samples.lfs3))
             [0.5%float; 0.25%float; 1%float]) ∧
  (length [0.5%float; 0.25%float; 1%float]
     = totalDoF (Linearized.frames Samples.lfs3) →
   Linearized.mapToSlice Samples.lfs3 Samples.x3
     = inr [0.5%float; 0.25%float; 1%float]).
Proof.
  apply (mapToSlice_sliceToMap_roundtrip Samples.lfs3
           [0.5%float; 0.25%float; 1%float] Samples.x3).
  - apply (bool_decide_unpack _). vm_compute. exact I.
  - vm_compute. reflexivity.
Defined.

(** ** The constructor of the linearized frame system *)

Section NewLinearizedFacts.
Import RefFrame.

Lemma totalDoF_concat fl : length (concat (DoF <$> fl)) = totalDoF fl.
Proof.
  induction fl as [|f fl IH]; [done|].
  change (concat (DoF <$> f :: fl)) with (DoF f ++ concat (DoF <$> fl)).
  rewrite length_app, IH. by rewrite totalDoF_cons.
Qed.

Lemma newLinearized_loop_found fs names : ∀ fr dof fl,
  Forall2 (λ n f, frameByName fs n = Some f) names fl →
  newLinearized_loop fs names fr dof
    = inr (Linearized.mkLFS (fr ++ fl) (dof ++ concat (DoF <$> fl))).
Proof.
  induction names as [|n names IH]; intros fr dof fl Hall.
  - apply Forall2_nil_inv_l in Hall as ->. simpl. by rewrite !app_nil_r.
  - apply Forall2_cons_inv_l in Hall as (f & fl' & Hf & Hall & ->).
    simpl. rewrite Hf. rewrite (IH _ _ fl') by done.
    by rewrite <- !app_assoc.
Qed.

Lemma newLinearized_loop_missing fs pre n rest : ∀ fr dof,
  Forall (λ k, is_Some (frameByName fs k)) pre →
  frameByName fs n = None →
  newLinearized_loop fs (pre ++ n :: rest) fr dof
    = inl (errExternal ("frame " +:+ n +:+
             " was returned in list of frame names, but was not found in frame system")).
Proof.
  induction pre as [|k pre IH]; intros fr dof Hpre Hn; simpl.
  - by rewrite Hn.
  - apply Forall_cons in Hpre as [[f Hf] Hpre]. rewrite Hf. by apply IH.
Qed.

Lemma newLinearized_loop_inv fs names : ∀ fr dof lfs,
  newLinearized_loop fs names fr dof = inr lfs →
  ∃ fl, Forall2 (λ n f, frameByName fs n = Some f) names fl ∧
        lfs = Linearized.mkLFS (fr ++ fl) (dof ++ concat (DoF <$> fl)).
Proof.
  induction names as [|n names IH]; intros fr dof lfs Hrun; simpl in Hrun.
  - simplify_eq. exists []. split; [constructor|]. simpl. by rewrite !app_nil_r.
  - destruct (frameByName fs n) as [f|] eqn:Hf; [|done].
    destruct (IH _ _ _ Hrun) as (fl & Hall & ->).
    exists (f :: fl). split; [by constructor|]. simpl. by rewrite <- !app_assoc.
Qed.

End NewLinearizedFacts.

(** X6. [newLinearizedFrameSystem] caches the frames of the names it is
    given, in their order, with the limits of the frames concatenated in
    the same order, so that there is one limit per value of the flat
    vector; it fails at the first name that the frame system does not
    have. *)
Theorem newLinearizedFrameSystem_spec
    (fs : RefFrame.FrameSystem) (frameNames : list string) :
  (∀ lfs, newLinearizedFrameSystem fs frameNames = inr lfs ↔
     Forall2 (λ n f, RefFrame.frameByName fs n = Some f)
             frameNames (Linearized.frames lfs) ∧
     Linearized.dof lfs = concat (DoF <$> Linearized.frames lfs)) ∧
  (∀ lfs, newLinearizedFrameSystem fs frameNames = inr lfs →
     length (Linearized.dof lfs) = totalDoF (Linearized.frames lfs)) ∧
  (∀ pre n rest,
     frameNames = pre ++ n :: rest →
     Forall (λ k, is_Some (RefFrame.frameByName fs k)) pre →
     RefFrame.frameByName fs n = None →
     ∃ msg, newLinearizedFrameSystem fs frameNames = inl (errExternal msg)).
Proof.
  unfold newLinearizedFrameSystem. split; [|split].
  - intros lfs. split.
    + intros (fl & Hall & ->)%newLinearized_loop_inv. by simpl.
    + intros [Hall Hdof]. rewrite (newLinearized_loop_found _ _ _ _ _ Hall).
      destruct lfs as [fr dof]. simpl in *. by rewrite Hdof.
  - intros lfs (fl & Hall & ->)%newLinearized_loop_inv. simpl.
    apply totalDoF_concat.
  - intros pre n rest -> Hpre Hn. eexists. by apply newLinearized_loop_missing.
Qed.

(** X7. A linearized frame system made by [newLinearizedFrameSystem]
    flattens inputs that have an entry of the right length for each frame
    with degrees of freedom into a vector with one value per cached
    limit, and [sliceToMap] accepts that vector. *)
Theorem newLinearized_mapToSlice_length
    (fs : RefFrame.FrameSystem) (frameNames : list string)
    (lfs : Linearized.linearizedFrameSystem) (x : FrameSystemInputs) :
  newLinearizedFrameSystem fs frameNames = inr lfs →
  (∀ f, f ∈ Linearized.frames lfs → DoF f ≠ [] →
        ∃ v, x !! Name f = Some v ∧ length v = length (DoF f)) →
  ∃ s, Linearized.mapToSlice lfs x = inr s ∧
       length s = length (Linearized.dof lfs) ∧
       ∃ m, Linearized.sliceToMap lfs s = inr m.
Proof.
  intros (fl & Hall & ->)%newLinearized_loop_inv Hx. simpl in *.
  assert (Hc : Linearized.covers fl x).
  { intros f Hf Hd. apply Hx; [done|]. by apply noDoF_false. }
  unfold Linearized.mapToSlice, Linearized.sliceToMap. simpl.
  rewrite mapToSlice_loop_flattened by done. simpl.
  exists (Linearized.flattened fl x). split; [done|].
  rewrite flattened_length, totalDoF_concat by done. split; [done|].
  destruct (sliceToMap_loop_total fl (Linearized.flattened fl x) 0 ∅) as [Hok _]; [lia|].
  apply Hok. rewrite flattened_length by done. lia.
Qed.

Lemma newLinearized_mapToSlice_length_witness :
  ∃ lfs s,
    newLinearizedFrameSystem Samples.robot ["arm"; "base"; "wrist"] = inr lfs ∧
    Linearized.mapToSlice lfs
      (<["arm" := [mkInput 0.5%float; mkInput 0.25%float]]>
         (<["wrist" := [mkInput 1%float]]> ∅)) = inr s ∧
    length s = length (Linearized.dof lfs) ∧
    ∃ m, Linearized.sliceToMap lfs s = inr m.
Proof.
  destruct (newLinearizedFrameSystem Samples.robot ["arm"; "base"; "wrist"])
    as [e|lfs] eqn:Hnew; [vm_compute in Hnew; discriminate|].
  exists lfs.
  destruct (newLinearized_mapToSlice_length Samples.robot ["arm"; "base"; "wrist"] lfs
              (<["arm" := [mkInput 0.5%float; mkInput 0.25%float]]>
                 (<["wrist" := [mkInput 1%float]]> ∅)) Hnew) as (s & H1 & H2 & H3).
  - vm_compute in Hnew. injection Hnew as <-. intros f Hf Hd. simpl in Hf.
    repeat (apply elem_of_cons in Hf as [->|Hf]); [| | |by apply elem_of_nil in Hf].
    + eexists. split; [vm_compute; reflexivity|reflexivity].
    + by destruct Hd.
    + eexists. split; [vm_compute; reflexivity|reflexivity].
  - exists s. split; [reflexivity|]. split; [exact H1|]. split; [exact H2|exact H3].
Defined.

(** ** Deduplication in place *)

Section UniqFacts.
Import Chain.

Lemma insert_app_drop (K s0 : list Frame) v :
  length K < length s0 →
  <[length K := v]> (K ++ drop (length K) s0)
    = (K ++ [v]) ++ drop (S (length K)) s0.
Proof.
  intros Hlt.
  destruct (drop (length K) s0) as [|x tl] eqn:Hdrop.
  - apply (f_equal length) in Hdrop. rewrite length_drop in Hdrop. simpl in Hdrop. lia.
  - assert (Htl : drop (S (length K)) s0 = tl).
    { replace (S (length K)) with (length K + 1) by lia.
      by rewrite <- drop_drop, Hdrop. }
    rewrite Htl, insert_app_r_alt by lia. rewrite Nat.sub_diag. simpl.
    by rewrite <- app_assoc.
Qed.

Lemma uniq_loop_spec vs : ∀ K seen s0,
  length K + length vs ≤ length s0 →
  uniq_loop vs (K ++ drop (length K) s0) seen (length K)
    = (let kept := K ++ firstOccurrences seen vs in
       (kept ++ drop (length kept) s0, length kept)).
Proof.
  induction vs as [|v vs IH]; intros K seen s0 Hlen; simpl.
  - by rewrite app_nil_r.
  - simpl in Hlen. destruct (bool_decide (addr v ∈ seen)).
    + rewrite IH by lia. done.
    + rewrite insert_app_drop by lia.
      replace (S (length K)) with (length (K ++ [v])) by (rewrite length_app; simpl; lia).
      rewrite IH by (rewrite length_app; simpl; lia).
      simpl. by rewrite <- !app_assoc.
Qed.

Lemma uniq_loop_whole s :
  uniq_loop s s ∅ 0
    = (firstOccurrences ∅ s ++ drop (length (firstOccurrences ∅ s)) s,
       length (firstOccurrences ∅ s)).
Proof. apply (uniq_loop_spec s [] ∅ s). simpl. lia. Qed.

Lemma uniqInPlaceSlice_firstOccurrences s :
  uniqInPlaceSlice s = firstOccurrences ∅ s.
Proof.
  unfold uniqInPlaceSlice. rewrite uniq_loop_whole.
  by rewrite take_app_length.
Qed.

Lemma firstOccurrences_sublist seen vs : firstOccurrences seen vs `sublist_of` vs.
Proof.
  revert seen. induction vs as [|v vs IH]; intros seen; simpl; [done|].
  destruct (bool_decide _); [by apply sublist_cons|by apply sublist_skip].
Qed.



Lemma firstOccurrences_fresh_prefix pre : ∀ seen rest,
  NoDup (addr <$> pre) → (∀ f, f ∈ pre → addr f ∉ seen) →
  firstOccurrences seen (pre ++ rest)
    = pre ++ firstOccurrences (list_to_set (addr <$> pre) ∪ seen) rest.
Proof.
  induction pre as [|v pre IH]; intros seen rest Hnd Hseen; simpl.
  - by rewrite union_empty_l_L.
  - rewrite fmap_cons in Hnd. apply NoDup_cons in Hnd as [Hv Hnd].
    rewrite bool_decide_eq_false_2 by (apply Hseen; left).
    f_equal. rewrite IH; [|done|].
    + f_equal. f_equal. set_solver.
    + intros f Hf [Hin|Hin]%elem_of_union.
      * apply elem_of_singleton in Hin. apply Hv. rewrite <- Hin.
        by apply list_elem_of_fmap_2.
      * apply (Hseen f); [by right|done].
Qed.

End UniqFacts.


(** X9. [uniqInPlaceSlice] writes into the array of its argument. The
    array keeps its length, the result is its beginning, and a beginning
    of the input without repeated frames is left as it was: a slice of
    distinct frames that shares the array, as the solve list does after
    [append] in [motionChainFromGoal], still reads the same. An input
    without repeated frames is returned unchanged. *)
Theorem uniqInPlaceSlice_in_place (pre rest : list Frame) :
  NoDup (addr <$> pre) →
  length (Chain.uniqInPlaceArray (pre ++ rest)) = length (pre ++ rest) ∧
  take (length (Chain.uniqInPlaceSlice (pre ++ rest)))
       (Chain.uniqInPlaceArray (pre ++ rest)) = Chain.uniqInPlaceSlice (pre ++ rest) ∧
  take (length pre) (Chain.uniqInPlaceArray (pre ++ rest)) = pre ∧
  Chain.uniqInPlaceSlice pre = pre.
Proof.
  intros Hnd.
  assert (Hsplit : firstOccurrences ∅ (pre ++ rest)
                   = pre ++ firstOccurrences (list_to_set (addr <$> pre) ∪ ∅) rest).
  { apply firstOccurrences_fresh_prefix; [done|]. set_solver. }
  pose proof (firstOccurrences_sublist ∅ (pre ++ rest)) as Hsub.
  apply sublist_length in Hsub.
  unfold Chain.uniqInPlaceArray. rewrite uniqInPlaceSlice_firstOccurrences.
  rewrite uniq_loop_whole. simpl. split; [|split; [|split]].
  - rewrite length_app, length_drop. lia.
  - by rewrite take_app_length.
  - rewrite Hsplit. rewrite <- app_assoc. by rewrite take_app_length.
  - rewrite uniqInPlaceSlice_firstOccurrences.
    rewrite <- (app_nil_r pre) at 1.
    rewrite firstOccurrences_fresh_prefix; [|done|set_solver].
    simpl. by rewrite app_nil_r.
Qed.

Lemma uniqInPlaceSlice_in_place_witness :
  length (Chain.uniqInPlaceArray (Samples.gripperChain ++ Samples.cameraChain))
    = length (Samples.gripperChain ++ Samples.cameraChain) ∧
  take (length (Chain.uniqInPlaceSlice (Samples.gripperChain ++ Samples.cameraChain)))
       (Chain.uniqInPlaceArray (Samples.gripperChain ++ Samples.cameraChain))
    = Chain.uniqInPlaceSlice (Samples.gripperChain ++ Samples.cameraChain) ∧
  take (length Samples.gripperChain)
       (Chain.uniqInPlaceArray (Samples.gripperChain ++ Samples.cameraChain))
    = Samples.gripperChain ∧
  Chain.uniqInPlaceSlice Samples.gripperChain = Samples.gripperChain.
Proof.
  apply (uniqInPlaceSlice_in_place Samples.gripperChain Samples.cameraChain).
  apply (bool_decide_unpack _). vm_compute. exact I.
Defined.

(** ** Frames in and out of the chains *)

Section FilterFacts.
Import Chain Chains.

Lemma foldl_insert_frames (fr : list Frame) : ∀ (m : gmap string Frame) n,
  is_Some (foldl (λ m frame, <[Name frame := frame]> m) m fr !! n) ↔
  is_Some (m !! n) ∨ ∃ f, f ∈ fr ∧ Name f = n.
Proof.
  induction fr as [|a fr IH]; intros m n; simpl.
  - split; [auto|]. intros [?|(f & Hf & _)]; [done|]. by apply elem_of_nil in Hf.
  - rewrite IH. destruct (decide (Name a = n)) as [<-|Hne].
    + rewrite lookup_insert_eq. split.
      * intros _. right. exists a. split; [left|done].
      * intros _. left. eauto.
    + rewrite lookup_insert_ne by done. split.
      * intros [?|(f & Hf & Hn)]; [by left|]. right. exists f. split; [by right|done].
      * intros [?|(f & [->|Hf]%elem_of_cons & Hn)]; [by left|done|].
        right. by exists f.
Qed.

Lemma movingMapOf_lookup chains n :
  is_Some (movingMapOf chains !! n) ↔ inSpan chains n.
Proof.
  unfold movingMapOf, inSpan.
  assert (Hgen : ∀ m : gmap string Frame,
    is_Some (foldl (λ m chain, foldl (λ m frame, <[Name frame := frame]> m) m (frames chain))
               m chains !! n) ↔
    is_Some (m !! n) ∨ ∃ chain f, chain ∈ chains ∧ f ∈ frames chain ∧ Name f = n).
  { induction chains as [|c chains IH]; intros m; simpl.
    - split; [auto|]. intros [?|(c & f & Hc & _)]; [done|]. by apply elem_of_nil in Hc.
    - rewrite IH, foldl_insert_frames. split.
      + intros [[?|(f & Hf & Hn)]|(c' & f & Hc & Hf & Hn)].
        * by left.
        * right. exists c, f. split; [left|done].
        * right. exists c', f. split; [by right|done].
      + intros [?|(c' & f & [->|Hc]%elem_of_cons & Hf & Hn)].
        * left. by left.
        * left. right. by exists f.
        * right. by exists c', f. }
  rewrite Hgen, lookup_empty. split; [intros [[? ?]|?]; done|auto].
Qed.

Lemma filter_fold (P : string → Prop) `{!∀ n, Decision (P n)} (names : list string) :
  ∀ acc : list string * list string,
  foldl (λ acc frameName,
           if decide (P frameName)
           then (acc.1 ++ [frameName], acc.2)
           else (acc.1, acc.2 ++ [frameName])) acc names
  = (acc.1 ++ filter P names, acc.2 ++ filter (λ n, ¬ P n) names).
Proof.
  induction names as [|n names IH]; intros [mv nm]; simpl.
  - by rewrite !app_nil_r.
  - rewrite IH. destruct (decide (P n)) as [Hp|Hp]; simpl.
    + rewrite filter_cons_True by done. rewrite filter_cons_False by auto.
      by rewrite <- app_assoc.
    + rewrite filter_cons_False by done. rewrite filter_cons_True by done.
      by rewrite <- app_assoc.
Qed.

End FilterFacts.

(** X10. [framesFilteredByMovingAndNonmoving] splits the frame names it
    enumerates in two: a name is listed as moving exactly when it is the
    name of a frame in the frame span of some chain, as nonmoving
    otherwise; both lists keep the order of the enumeration and together
    they are the enumeration, each name as often as it was given. *)
Theorem framesFilteredByMovingAndNonmoving_partition
    (mC : Chains.motionChains) (frameNames : list string) :
  let '(moving, nonmoving) := Chains.framesFilteredByMovingAndNonmoving mC frameNames in
  (∀ n, n ∈ moving ↔ n ∈ frameNames ∧ inSpan (Chains.inner mC) n) ∧
  (∀ n, n ∈ nonmoving ↔ n ∈ frameNames ∧ ¬ inSpan (Chains.inner mC) n) ∧
  moving `sublist_of` frameNames ∧ nonmoving `sublist_of` frameNames ∧
  moving ++ nonmoving ≡ₚ frameNames.
Proof.
  unfold Chains.framesFilteredByMovingAndNonmoving.
  rewrite (filter_fold (λ n, is_Some (Chains.movingMapOf (Chains.inner mC) !! n))).
  simpl. split; [|split; [|split; [|split]]].
  - intros n. rewrite list_elem_of_filter, movingMapOf_lookup. tauto.
  - intros n. rewrite list_elem_of_filter, movingMapOf_lookup. tauto.
  - apply sublist_filter.
  - apply sublist_filter.
  - apply filter_app_complement.
Qed.

(** ** Pivot search on any two lists *)

(** X11. On any two lists of frames, [findPivotFrame] fails only with
    the no-path error and only when no frame of one list has the name of
    a frame of the other; a frame it returns is a frame of the longer
    list (of the second when the lengths are equal) and its name is the
    name of a frame of each list. *)
Theorem findPivotFrame_sound (frameList1 frameList2 : list Frame) :
  match Chain.findPivotFrame frameList1 frameList2 with
  | inl e =>
      e = errNoPath ∧
      ∀ x y, x ∈ frameList1 → y ∈ frameList2 → Name x ≠ Name y
  | inr p =>
      (if decide (length frameList2 < length frameList1)
       then p ∈ frameList1 else p ∈ frameList2) ∧
      (∃ x, x ∈ frameList1 ∧ Name x = Name p) ∧
      (∃ y, y ∈ frameList2 ∧ Name y = Name p)
  end.
Proof.
  rewrite findPivotFrame_scan.
  destruct (decide (length frameList2 < length frameList1)); unfold scanFor.
  - destruct (find _ frameList1) as [p|] eqn:Hfind.
    + apply find_split in Hfind as (pre & suf & -> & Hp & _).
      apply nameSet_elem in Hp. split; [|split; [|done]].
      * apply elem_of_app. right. left.
      * exists p. split; [|done]. apply elem_of_app. right. left.
    + split; [done|]. intros x y Hx Hy Hn.
      pose proof (find_none_all _ _ Hfind x Hx) as Hfalse. simpl in Hfalse.
      apply bool_decide_eq_false in Hfalse. apply Hfalse.
      apply elem_of_list_to_set, list_elem_of_fmap. by exists y.
  - destruct (find _ frameList2) as [p|] eqn:Hfind.
    + apply find_split in Hfind as (pre & suf & -> & Hp & _).
      apply nameSet_elem in Hp. split; [|split; [done|]].
      * apply elem_of_app. right. left.
      * exists p. split; [|done]. apply elem_of_app. right. left.
    + split; [done|]. intros x y Hx Hy Hn.
      pose proof (find_none_all _ _ Hfind y Hy) as Hfalse. simpl in Hfalse.
      apply bool_decide_eq_false in Hfalse. apply Hfalse.
      apply elem_of_list_to_set, list_elem_of_fmap. by exists x.
Qed.

(** ** What the check for PTG frames lets through *)

Section CheckFacts.
Import Chain Chains.

Lemma setWorldRooted_same chain : setWorldRooted (worldRooted chain) chain = chain.
Proof. by destruct chain. Qed.

(** The frames of one chain: either nothing changes, and then there was
    no PTG frame if none was met before, or the first PTG frame of the
    whole check is among them, with a single chain. *)
Lemma checkFrames_inr n fr : ∀ useTP name wr useTP' name' wr',
  checkFrames n fr useTP name wr = inr (useTP', name', wr') →
  (useTP' = useTP ∧ name' = name ∧ wr' = wr ∧ (useTP = false → noPTG fr)) ∨
  (useTP = false ∧ useTP' = true ∧ wr' = true ∧ ¬ 1 < n ∧
   ∃ p, p ∈ fr ∧ isPTGProvider p = true ∧ name' = Name p).
Proof.
  induction fr as [|a fr IH]; intros useTP name wr useTP' name' wr' Hrun;
    simpl in Hrun.
  - simplify_eq. left. do 3 (split; [done|]). intros _ f Hf.
    by apply elem_of_nil in Hf.
  - destruct (isPTGProvider a) eqn:Ha.
    + destruct useTP; [done|]. destruct (decide (1 < n)); [done|].
      right. apply IH in Hrun as [(-> & -> & -> & _)|(? & _)]; [|done].
      do 4 (split; [done|]). exists a. split; [left|done].
    + assert (Hrun' : checkFrames n fr useTP name wr = inr (useTP', name', wr')).
      { destruct (decide (0 < length (DoF a))); [|done]. by destruct useTP. }
      apply IH in Hrun' as [(-> & -> & -> & Hno)|(-> & -> & -> & Hn & p & Hp & Hptg & ->)].
      * left. do 3 (split; [done|]). intros Hu f [->|Hf]%elem_of_cons; [done|].
        by apply Hno.
      * right. do 4 (split; [done|]). exists p. split; [by right|done].
Qed.

Lemma checkChains_inr n chains : ∀ useTP name chains' useTP' name',
  checkChains n chains useTP name = inr (chains', useTP', name') →
  (useTP' = useTP ∧ name' = name ∧ chains' = chains ∧
   (useTP = false → ∀ chain, chain ∈ chains → noPTG (frames chain))) ∨
  (useTP = false ∧ useTP' = true ∧ ¬ 1 < n ∧
   ∃ pre chain suf p,
     chains = pre ++ chain :: suf ∧
     chains' = pre ++ setWorldRooted true chain :: suf ∧
     p ∈ frames chain ∧ isPTGProvider p = true ∧ name' = Name p).
Proof.
  induction chains as [|c chains IH]; intros useTP name chains' useTP' name' Hrun;
    simpl in Hrun.
  - simplify_eq. left. do 3 (split; [done|]). intros _ chain Hc.
    by apply elem_of_nil in Hc.
  - destruct (checkFrames n (frames c) useTP name (worldRooted c))
      as [?|[[u1 n1] w1]] eqn:Hc; [done|]. simpl in Hrun.
    destruct (checkChains n chains u1 n1) as [?|[[rest' u2] n2]] eqn:Hrest; [done|].
    simpl in Hrun. simplify_eq.
    apply checkFrames_inr in Hc
      as [(-> & -> & -> & Hno)|(-> & -> & -> & Hn & p & Hp & Hptg & ->)].
    + apply IH in Hrest
        as [(-> & -> & -> & Hno')|(-> & -> & Hn & pre & chain & suf & p & -> & -> & Hp & Hptg & ->)].
      * left. rewrite setWorldRooted_same. do 3 (split; [done|]).
        intros Hu chain [->|Hin]%elem_of_cons; [by apply Hno|by apply Hno'].
      * right. do 3 (split; [done|]). exists (c :: pre), chain, suf, p.
        rewrite setWorldRooted_same. done.
    + apply IH in Hrest as [(-> & -> & -> & _)|(? & _)]; [|done].
      right. do 3 (split; [done|]). by exists [], c, chains, p.
Qed.

Lemma checkChains_ordinary n chains name :
  (∀ chain, chain ∈ chains → noPTG (frames chain)) →
  checkChains n chains false name = inr (chains, false, name).
Proof.
  induction chains as [|c chains IH]; intros Hno; simpl; [done|].
  assert (Hc : checkFrames n (frames c) false name (worldRooted c)
               = inr (false, name, worldRooted c)).
  { rewrite <- (app_nil_r (frames c)).
    rewrite checkFrames_noPTG by (apply Hno; left). done. }
  rewrite Hc. simpl. rewrite IH by (intros chain Hin; apply Hno; by right).
  simpl. by rewrite setWorldRooted_same.
Qed.

End CheckFacts.

(** X12. What the check at the end of [motionChainsFromPlanState] lets
    through. When it succeeds there is at least one chain. Either
    [useTPspace] is false, and then no chain has a PTG frame in its frame
    span, the chains are as they were built and [ptgFrameName] is empty;
    or [useTPspace] is true, and then there is exactly one chain, it has
    been made world-rooted, and [ptgFrameName] is the name of a PTG frame
    of its frame span. *)
Theorem checkInner_success
    (inner : list Chain.motionChain) (mC : Chains.motionChains) :
  Chains.checkInner inner = inr mC →
  inner ≠ [] ∧
  (Chains.useTPspace mC = false →
     Chains.inner mC = inner ∧ Chains.ptgFrameName mC = "" ∧
     ∀ chain, chain ∈ inner → noPTG (Chain.frames chain)) ∧
  (Chains.useTPspace mC = true →
     ∃ chain p, inner = [chain] ∧
                Chains.inner mC = [Chains.setWorldRooted true chain] ∧
                p ∈ Chain.frames chain ∧ isPTGProvider p = true ∧
                Chains.ptgFrameName mC = Name p).
Proof.
  unfold Chains.checkInner. intros Hrun.
  destruct (decide (length inner < 1)) as [|Hlen]; [done|].
  destruct (Chains.checkChains _ _ _ _) as [?|[[inner' u] name]] eqn:Hcheck; [done|].
  simpl in Hrun. simplify_eq. simpl.
  split; [intros ->; simpl in Hlen; lia|].
  apply checkChains_inr in Hcheck
    as [(-> & -> & -> & Hno)|(_ & -> & Hn & pre & chain & suf & p & -> & -> & Hp & Hptg & ->)].
  - split; [auto|done].
  - split; [done|]. intros _. exists chain, p.
    rewrite length_app in Hn. simpl in Hn.
    destruct pre; [|simpl in Hn; lia]. destruct suf; [|simpl in Hn; lia]. done.
Qed.

Lemma checkInner_success_witness :
  [Samples.ptgChain] ≠ [] ∧
  (Chains.useTPspace (Chains.mkChains [Chains.setWorldRooted true Samples.ptgChain] true "base")
     = false →
     Chains.inner (Chains.mkChains [Chains.setWorldRooted true Samples.ptgChain] true "base")
       = [Samples.ptgChain] ∧
     Chains.ptgFrameName
       (Chains.mkChains [Chains.setWorldRooted true Samples.ptgChain] true "base") = "" ∧
     ∀ chain, chain ∈ [Samples.ptgChain] → noPTG (Chain.frames chain)) ∧
  (Chains.useTPspace (Chains.mkChains [Chains.setWorldRooted true Samples.ptgChain] true "base")
     = true →
     ∃ chain p, [Samples.ptgChain] = [chain] ∧
                Chains.inner
                  (Chains.mkChains [Chains.setWorldRooted true Samples.ptgChain] true "base")
                  = [Chains.setWorldRooted true chain] ∧
                p ∈ Chain.frames chain ∧ isPTGProvider p = true ∧
                Chains.ptgFrameName
                  (Chains.mkChains [Chains.setWorldRooted true Samples.ptgChain] true "base")
                  = Name p).
Proof.
  apply (checkInner_success [Samples.ptgChain]
           (Chains.mkChains [Chains.setWorldRooted true Samples.ptgChain] true "base")).
  vm_compute. reflexivity.
Defined.

(** X13. Chains without PTG frames pass the check as they are: for at
    least one chain, none with a PTG frame in its frame span, the result
    has the chains unchanged, [useTPspace] false and no PTG frame name,
    however many chains there are and whatever their degrees of freedom;
    without chains the check fails with the error that there must be at
    least one motion chain. *)
Theorem checkInner_ordinary (inner : list Chain.motionChain) :
  (∀ chain, chain ∈ inner → noPTG (Chain.frames chain)) →
  Chains.checkInner inner =
    match inner with
    | [] => inl errNoChains
    | _ => inr (Chains.mkChains inner false "")
    end.
Proof.
  intros Hno. unfold Chains.checkInner. destruct inner as [|c inner]; [done|].
  rewrite decide_False by (simpl; lia).
  by rewrite checkChains_ordinary.
Qed.

Lemma checkInner_ordinary_witness :
  Chains.checkInner (Chains.inner Samples.gripperFromCamera) =
    match Chains.inner Samples.gripperFromCamera with
    | [] => inl errNoChains
    | _ => inr (Chains.mkChains (Chains.inner Samples.gripperFromCamera) false "")
    end.
Proof.
  apply (checkInner_ordinary (Chains.inner Samples.gripperFromCamera)).
  intros chain Hc f Hf.
  assert (Hall : Forall (λ chain, Forall (λ f, isPTGProvider f = false) (Chain.frames chain))
                   (Chains.inner Samples.gripperFromCamera)).
  { apply (bool_decide_unpack _). vm_compute. exact I. }
  rewrite Forall_forall in Hall. specialize (Hall chain Hc).
  rewrite Forall_forall in Hall. by apply Hall.
Defined.

(** ** When a motion chain is built *)

Section BuildFacts.
Import RefFrame Chain.
Context (fs : FrameSystem) (Hwf : treeStructured fs) (Hroot : parentsLeadToRoot fs).

Lemma TracebackFrame_found n f :
  frameByName fs n = Some f → ∃ l, TracebackFrame fs f = inr l.
Proof.
  intros Hf. unfold TracebackFrame.
  rewrite (frameByName_inFS fs Hwf _ _ Hf).
  unfold frameByName in Hf. destruct (decide (n = World)).
  - assert (f = world fs) as -> by congruence.
    assert (Hw : traceback fs (enoughFuel fs) (world fs) = Some [world fs]).
    { unfold enoughFuel. simpl. unfold sameFrame. by rewrite Nat.eqb_refl. }
    rewrite Hw. eauto.
  - apply elem_of_map_to_list in Hf.
    unfold parentsLeadToRoot in Hroot. rewrite Forall_forall in Hroot.
    destruct (Hroot _ Hf) as [l Hl].
    change (traceback fs (enoughFuel fs) f = Some l) in Hl. rewrite Hl. eauto.
Qed.

Lemma FrameSystemSubset_found f :
  inFS fs f → ∃ sys, FrameSystemSubset fs f = inr sys ∧ world sys = zeroWorld.
Proof.
  intros Hf. unfold FrameSystemSubset. rewrite Hf. eauto.
Qed.

Lemma movingFSOf_found l :
  Forall (inFS fs) l → ∃ sys, movingFSOf fs l = inr sys ∧ world sys = zeroWorld.
Proof.
  intros Hall. unfold movingFSOf.
  destruct (find _ (reverse l)) as [moveF|] eqn:Hfind.
  - apply FrameSystemSubset_found.
    apply find_split in Hfind as (pre & suf & Hrev & _ & _).
    rewrite Forall_forall in Hall. apply Hall.
    apply elem_of_reverse. rewrite Hrev. apply elem_of_app. right. left.
  - eexists. split; [done|]. done.
Qed.

Lemma mergeMoving_found m1 m2 :
  world m1 = zeroWorld → ∃ m, mergeMoving m1 m2 = inr m.
Proof.
  intros Hw. unfold mergeMoving, MergeFrameSystem, frameByName.
  rewrite Hw. simpl. eauto.
Qed.

Lemma untilPivot_sublist p l : untilPivot p l `sublist_of` l.
Proof.
  induction l as [|a l IH]; simpl; [done|].
  destruct (sameFrame a p); [apply sublist_nil_l|by apply sublist_skip].
Qed.

Lemma Forall_sublist {A} (P : A → Prop) (l1 l2 : list A) :
  l1 `sublist_of` l2 → Forall P l2 → Forall P l1.
Proof.
  intros Hsub. induction Hsub; intros Hall; [done| |].
  - apply Forall_cons in Hall as [? ?]. constructor; auto.
  - apply Forall_cons in Hall as [? ?]. auto.
Qed.

End BuildFacts.

Lemma motionChainFromGoal_builds
    (fs : RefFrame.FrameSystem) (moveFrame goalFrameName : string)
    (solveFrame goalFrame : Frame) :
  RefFrame.treeStructured fs → parentsLeadToRoot fs →
  RefFrame.frameByName fs goalFrameName = Some goalFrame →
  RefFrame.frameByName fs moveFrame = Some solveFrame →
  ∃ chain, Chain.motionChainFromGoal fs moveFrame goalFrameName = inr chain ∧
           Chain.solveFrameName chain = moveFrame ∧
           Chain.goalFrameName chain = goalFrameName.
Proof.
  intros Hwf Hroot Hg Hs. unfold Chain.motionChainFromGoal. rewrite Hg.
  destruct (TracebackFrame_found fs Hwf Hroot _ _ Hg) as [goalList Htg].
  rewrite Htg. unfold bindE at 1.
  rewrite Hs.
  destruct (TracebackFrame_found fs Hwf Hroot _ _ Hs) as [solveList Hts].
  rewrite Hts. unfold bindE at 1.
  pose proof (frameByName_inFS fs Hwf _ _ Hg) as Hgin.
  pose proof (frameByName_inFS fs Hwf _ _ Hs) as Hsin.
  pose proof (TracebackFrame_inr fs _ _ Hts) as H1.
  pose proof (TracebackFrame_inr fs _ _ Htg) as H2.
  pose proof (traceback_inFS fs Hwf _ _ _ Hsin H1) as Hall1.
  pose proof (traceback_inFS fs Hwf _ _ _ Hgin H2) as Hall2.
  destruct (traceback_head fs _ _ _ H1) as [t ->].
  rewrite decide_False by (simpl; lia).
  destruct (chains_split fs Hwf _ _ _ _ _ Hsin Hgin H1 H2)
    as (p & pre1 & pre2 & suf & Hl1 & -> & _ & _ & Hs1 & Hs2).
  assert (Hpivot : Chain.findPivotFrame (solveFrame :: t) (pre2 ++ p :: suf) = inr p).
  { rewrite findPivotFrame_scan. destruct (decide _); by rewrite ?Hs1, ?Hs2. }
  rewrite Hpivot. unfold bindE at 1.
  rewrite (frameByName_name fs Hwf _ _ Hg), (frameByName_name fs Hwf _ _ Hs).
  destruct (movingFSOf_found fs (solveFrame :: t) Hall1) as (m1 & Hm1 & Hw1).
  destruct (movingFSOf_found fs (pre2 ++ p :: suf) Hall2) as (m2 & Hm2 & Hw2).
  destruct (decide (Name p = World)).
  - rewrite Hm1, Hm2. unfold bindE at 1 2.
    destruct (mergeMoving_found m1 m2 Hw1) as [m Hm]. rewrite Hm. simpl. eauto.
  - cbv zeta.
    destruct (decide (_ = 0)).
    + rewrite Hm1. simpl. eauto.
    + destruct (movingFSOf_found fs (Chain.untilPivot p (solveFrame :: t)))
        as (m3 & Hm3 & Hw3);
        [by eapply Forall_sublist; [apply untilPivot_sublist|]|].
      destruct (movingFSOf_found fs (Chain.untilPivot p (pre2 ++ p :: suf)))
        as (m4 & Hm4 & Hw4);
        [by eapply Forall_sublist; [apply untilPivot_sublist|]|].
      rewrite Hm3, Hm4. unfold bindE at 1 2.
      destruct (mergeMoving_found m3 m4 Hw3) as [m Hm]. rewrite Hm. simpl. eauto.
Qed.


(** X14. In a tree-structured frame system in which the parents of every
    frame lead to the root, [motionChainFromGoal] builds a chain whenever
    both names are frames of the system, and the chain carries the two
    names; when the goal frame is missing it fails with the frame missing
    error for the goal frame, whether or not the frame to move exists,
    and when only the frame to move is missing with that error for it. *)
Theorem motionChainFromGoal_total
    (fs : RefFrame.FrameSystem) (moveFrame goalFrameName : string) :
  RefFrame.treeStructured fs → parentsLeadToRoot fs →
  match RefFrame.frameByName fs goalFrameName, RefFrame.frameByName fs moveFrame with
  | None, _ =>
      Chain.motionChainFromGoal fs moveFrame goalFrameName
        = inl (errFrameMissing goalFrameName)
  | Some _, None =>
      Chain.motionChainFromGoal fs moveFrame goalFrameName
        = inl (errFrameMissing moveFrame)
  | Some _, Some _ =>
      ∃ chain, Chain.motionChainFromGoal fs moveFrame goalFrameName = inr chain ∧
               Chain.solveFrameName chain = moveFrame ∧
               Chain.goalFrameName chain = goalFrameName
  end.
Proof.
  intros Hwf Hroot.
  destruct (RefFrame.frameByName fs goalFrameName) as [goalFrame|] eqn:Hg.
  - destruct (RefFrame.frameByName fs moveFrame) as [solveFrame|] eqn:Hs.
    + by eapply motionChainFromGoal_builds.
    + unfold Chain.motionChainFromGoal. rewrite Hg, Hs.
      destruct (TracebackFrame_found fs Hwf Hroot _ _ Hg) as [goalList ->]. done.
  - unfold Chain.motionChainFromGoal. by rewrite Hg.
Qed.

Lemma motionChainFromGoal_total_witness :
  (∃ chain, Chain.motionChainFromGoal Samples.robot "wrist" "camera" = inr chain ∧
            Chain.solveFrameName chain = "wrist" ∧
            Chain.goalFrameName chain = "camera") ∧
  Chain.motionChainFromGoal Samples.robot "nowhere" "lamp"
    = inl (errFrameMissing "lamp") ∧
  Chain.motionChainFromGoal Samples.robot "nowhere" "camera"
    = inl (errFrameMissing "nowhere").
Proof.
  assert (Hwf : RefFrame.treeStructured Samples.robot)
    by (apply (bool_decide_unpack _); vm_compute; exact I).
  assert (Hroot : parentsLeadToRoot Samples.robot)
    by (apply (bool_decide_unpack _); vm_compute; exact I).
  split; [|split].
  - exact (motionChainFromGoal_total Samples.robot "wrist" "camera" Hwf Hroot).
  - exact (motionChainFromGoal_total Samples.robot "nowhere" "lamp" Hwf Hroot).
  - exact (motionChainFromGoal_total Samples.robot "nowhere" "camera" Hwf Hroot).
Defined.

(** ** The three cases of a motion chain *)

Section CaseFacts.
Import RefFrame Chain.
Context (fs : FrameSystem) (Hwf : treeStructured fs).

Lemma motionChainFromGoal_cases moveFrame goalFrameName chain :
  motionChainFromGoal fs moveFrame goalFrameName = inr chain →
  ∃ solveFrame goalFrame p pre1 pre2 suf,
    frameByName fs moveFrame = Some solveFrame ∧
    frameByName fs goalFrameName = Some goalFrame ∧
    traceback fs (enoughFuel fs) solveFrame = Some (pre1 ++ p :: suf) ∧
    traceback fs (enoughFuel fs) goalFrame = Some (pre2 ++ p :: suf) ∧
    (∀ x, x ∈ pre1 → x ∉ pre2 ++ p :: suf) ∧
    (∀ y, y ∈ pre2 → y ∉ pre1 ++ p :: suf) ∧
    solveFrameName chain = moveFrame ∧ Chain.goalFrameName chain = goalFrameName ∧
    builtAs fs chain (pre1 ++ p :: suf) (pre2 ++ p :: suf) p pre1 pre2.
Proof.
  intros Hrun. unfold motionChainFromGoal in Hrun.
  destruct (frameByName fs goalFrameName) as [goalFrame|] eqn:Hg; [|done].
  destruct (TracebackFrame fs goalFrame) as [?|goalList] eqn:Htg; [done|].
  unfold bindE at 1 in Hrun.
  destruct (frameByName fs moveFrame) as [solveFrame|] eqn:Hs; [|done].
  destruct (TracebackFrame fs solveFrame) as [?|solveList] eqn:Hts; [done|].
  unfold bindE at 1 in Hrun.
  destruct (decide (length solveList = 0)); [done|].
  pose proof (frameByName_inFS fs Hwf _ _ Hg) as Hgin.
  pose proof (frameByName_inFS fs Hwf _ _ Hs) as Hsin.
  pose proof (TracebackFrame_inr fs _ _ Hts) as H1.
  pose proof (TracebackFrame_inr fs _ _ Htg) as H2.
  destruct (chains_split fs Hwf _ _ _ _ _ Hsin Hgin H1 H2)
    as (p & pre1 & pre2 & suf & -> & -> & Hn1 & Hn2 & Hs1 & Hs2).
  assert (Hpivot : findPivotFrame (pre1 ++ p :: suf) (pre2 ++ p :: suf) = inr p).
  { rewrite findPivotFrame_scan. destruct (decide _); by rewrite ?Hs1, ?Hs2. }
  rewrite Hpivot in Hrun. unfold bindE at 1 in Hrun.
  pose proof (traceback_inFS fs Hwf _ _ _ Hsin H1) as Hall1.
  pose proof (traceback_inFS fs Hwf _ _ _ Hgin H2) as Hall2.
  rewrite Forall_forall in Hall1, Hall2.
  assert (Hp1 : p ∈ pre1 ++ p :: suf) by (apply elem_of_app; right; left).
  assert (Hp2 : p ∈ pre2 ++ p :: suf) by (apply elem_of_app; right; left).
  assert (Hd1 : ∀ x, x ∈ pre1 → sameFrame x p = false).
  { intros x Hx. apply not_true_is_false. intros Hsame.
    apply (sameFrame_inFS fs Hwf) in Hsame;
      [|apply Hall1, elem_of_app; by left|by apply Hall1].
    subst x. by apply (Hn1 p Hx). }
  assert (Hd2 : ∀ x, x ∈ pre2 → sameFrame x p = false).
  { intros x Hx. apply not_true_is_false. intros Hsame.
    apply (sameFrame_inFS fs Hwf) in Hsame;
      [|apply Hall2, elem_of_app; by left|by apply Hall2].
    subst x. by apply (Hn2 p Hx). }
  rewrite (frameByName_name fs Hwf _ _ Hg), (frameByName_name fs Hwf _ _ Hs) in Hrun.
  exists solveFrame, goalFrame, p, pre1, pre2, suf.
  do 6 (split; [done|]). unfold builtAs.
  destruct (decide (Name p = World)) as [Hw|Hw].
  - destruct (movingFSOf fs (pre1 ++ p :: suf)) as [?|m1] eqn:Hm1; [done|].
    unfold bindE at 1 in Hrun.
    destruct (movingFSOf fs (pre2 ++ p :: suf)) as [?|m2] eqn:Hm2; [done|].
    unfold bindE at 1 in Hrun.
    destruct (mergeMoving m1 m2) as [?|m] eqn:Hm; [done|]. unfold bindE in Hrun.
    simplify_eq. simpl. do 2 (split; [done|]). left.
    do 3 (split; [done|]). by exists m1, m2.
  - rewrite !untilPivot_split in Hrun by done. cbv zeta in Hrun.
    destruct (decide (dofOf pre1 + dofOf pre2 = 0)) as [Hz|Hz].
    + destruct (movingFSOf fs (pre1 ++ p :: suf)) as [?|m1] eqn:Hm1; [done|].
      unfold bindE in Hrun. simplify_eq. simpl. do 2 (split; [done|]).
      right. left. done.
    + destruct (movingFSOf fs pre1) as [?|m1] eqn:Hm1; [done|].
      unfold bindE at 1 in Hrun.
      destruct (movingFSOf fs pre2) as [?|m2] eqn:Hm2; [done|].
      unfold bindE at 1 in Hrun.
      destruct (mergeMoving m1 m2) as [?|m] eqn:Hm; [done|]. unfold bindE in Hrun.
      simplify_eq. simpl. do 2 (split; [done|]). right. right.
      do 4 (split; [done|]). by exists m1, m2.
Qed.



(** The root is the last frame of a chain: a chain splits at the root
    only with nothing after it. *)
Lemma traceback_root_last k f pre p suf :
  inFS fs f → traceback fs k f = Some (pre ++ p :: suf) →
  Name p = World → suf = [].
Proof.
  intros Hf Hrun Hp.
  pose proof (traceback_inFS fs Hwf _ _ _ Hf Hrun) as Hall.
  rewrite Forall_forall in Hall.
  assert (Hpin : inFS fs p) by (apply Hall, elem_of_app; right; left).
  assert (p = world fs) as ->.
  { unfold inFS, frameByName in Hpin. rewrite Hp in Hpin.
    rewrite decide_True in Hpin by done. congruence. }
  apply traceback_suffix in Hrun. destruct k as [|k]; [done|].
  rewrite traceback_S in Hrun. unfold sameFrame in Hrun.
  rewrite Nat.eqb_refl in Hrun. congruence.
Qed.

End CaseFacts.

Section SpanFacts.
Import RefFrame Chain.
Context (fs : FrameSystem) (Hwf : treeStructured fs).

Lemma TracebackFrame_of_traceback f l :
  inFS fs f → traceback fs (enoughFuel fs) f = Some l → TracebackFrame fs f = inr l.
Proof. intros Hf Hl. unfold TracebackFrame. by rewrite Hf, Hl. Qed.


End SpanFacts.



(** X16. A chain whose goal frame is its solve frame, as
    [motionChainsFromPlanState] builds for a configuration goal, in a
    tree-structured frame system: for a frame other than the root the
    chain is always world-rooted, its frame span is the whole ancestor
    chain of the frame, and its moving subsystem is derived from that
    chain; for the root it is not world-rooted and its span is the root
    alone. *)
Theorem motionChainFromGoal_same_frame
    (fs : RefFrame.FrameSystem) (frameName : string) (chain : Chain.motionChain) :
  RefFrame.treeStructured fs →
  Chain.motionChainFromGoal fs frameName frameName = inr chain →
  ∃ frame l,
    RefFrame.frameByName fs frameName = Some frame ∧
    RefFrame.TracebackFrame fs frame = inr l ∧
    (frameName ≠ World →
       Chain.worldRooted chain = true ∧ Chain.frames chain = l ∧
       Chain.movingFSOf fs l = inr (Chain.movingFS chain)) ∧
    (frameName = World →
       Chain.worldRooted chain = false ∧ Chain.frames chain = [frame]).
Proof.
  intros Hwf Hrun.
  destruct (motionChainFromGoal_cases fs Hwf _ _ _ Hrun)
    as (solveFrame & goalFrame & p & pre1 & pre2 & suf & Hs & Hg & H1 & H2 &
        Hn1 & Hn2 & _ & _ & Hbuilt).
  assert (goalFrame = solveFrame) as -> by congruence.
  assert (Heq : pre1 ++ p :: suf = pre2 ++ p :: suf) by congruence.
  apply app_inv_tail in Heq. subst pre2.
  assert (pre1 = []) as ->.
  { destruct pre1 as [|x pre1]; [done|]. exfalso.
    apply (Hn1 x); [left|]. apply elem_of_app. left. left. }
  change ([] ++ p :: suf) with (p :: suf) in *.
  pose proof (frameByName_inFS fs Hwf _ _ Hs) as Hsin.
  destruct (traceback_head fs _ _ _ H1) as [t Ht].
  assert (p = solveFrame ∧ suf = t) as [-> ->] by (split; congruence). clear Ht.
  pose proof (frameByName_name fs Hwf _ _ Hs) as Hname.
  exists solveFrame, (solveFrame :: t). split; [done|].
  split; [by apply TracebackFrame_of_traceback|].
  unfold Chain.dofOf in Hbuilt. simpl in Hbuilt.
  destruct Hbuilt as [(Hw & Hwr & Hfr & _)|[(Hw & _ & Hwr & Hfr & Hmv)|(_ & Hz & _)]];
    [| |done].
  - split; [intros Hne; congruence|]. intros _. split; [done|].
    pose proof (traceback_root_last fs Hwf _ _ [] _ _ Hsin H1 Hw) as ->.
    rewrite Hfr. rewrite uniqInPlaceSlice_firstOccurrences. simpl.
    rewrite bool_decide_eq_false_2 by set_solver.
    rewrite bool_decide_eq_true_2 by set_solver. done.
  - split; [done|]. intros Heq. congruence.
Qed.

Lemma motionChainFromGoal_same_frame_witness :
  ∃ chain,
    Chain.motionChainFromGoal Samples.robot "wrist" "wrist" = inr chain ∧
    ∃ frame l,
      RefFrame.frameByName Samples.robot "wrist" = Some frame ∧
      RefFrame.TracebackFrame Samples.robot frame = inr l ∧
      ("wrist" ≠ World →
         Chain.worldRooted chain = true ∧ Chain.frames chain = l ∧
         Chain.movingFSOf Samples.robot l = inr (Chain.movingFS chain)) ∧
      ("wrist" = World →
         Chain.worldRooted chain = false ∧ Chain.frames chain = [frame]).
Proof.
  destruct (Chain.motionChainFromGoal Samples.robot "wrist" "wrist")
    as [e|chain] eqn:Hrun; [vm_compute in Hrun; discriminate|].
  exists chain. split; [reflexivity|].
  apply (motionChainFromGoal_same_frame Samples.robot "wrist" chain).
  - apply (bool_decide_unpack _). vm_compute. exact I.
  - exact Hrun.
Defined.

(** ** When [geometries] cannot sort an entry *)

Section GeometryPanic.
Import RefFrame Chain Chains.
Context {Geometry : Type}.


End GeometryPanic.


(** ** The promise without precomputed steps *)

(** X18. With no precomputed nodes (a nil or an empty sequence),
    [result] goes to the channel: the caller blocks on a nil channel
    or while nothing was sent, gets the error alone when the worker
    sent one, even if it sent steps too, and the steps of the worker
    otherwise. Whatever the promise, a call never returns both nodes
    and an error. *)
Theorem result_without_steps {node : Type} (r : Promise.resultPromise node) :
  (Promise.nonEmpty (Promise.steps r) = false →
   Promise.run r =
     match Promise.future r with
     | Promise.NilChan | Promise.Waiting => Promise.Blocks
     | Promise.Closed => Promise.Panics
     | Promise.Sent planReturn =>
         match Promise.solErr planReturn with
         | Some err => Promise.Returns (None, Some err)
         | None => Promise.Returns (Promise.solSteps planReturn, None)
         end
     end) ∧
  (∀ nodes err, Promise.run r = Promise.Returns (nodes, err) →
                nodes = None ∨ err = None).
Proof.
  unfold Promise.run, Promise.result. split.
  - intros Hne. rewrite Hne, andb_false_r.
    destruct (Promise.future r) as [| |planReturn|]; try done.
    by destruct (Promise.solErr planReturn).
  - intros nodes err.
    destruct (bool_decide _ && Promise.nonEmpty _).
    + intros [= <- <-]. by right.
    + destruct (Promise.future r) as [| |planReturn|]; try done.
      destruct (Promise.solErr planReturn); intros [= <- <-]; auto.
Qed.

Lemma result_without_steps_witness :
  (Promise.nonEmpty (Promise.steps
      (Promise.mkPromise (node:=nat) None
         (Promise.Sent (Promise.mkSolution (Some [1; 2]) (Some errNoPath))))) = false →
   Promise.run (Promise.mkPromise (node:=nat) None
         (Promise.Sent (Promise.mkSolution (Some [1; 2]) (Some errNoPath))))
   = Promise.Returns (None, Some errNoPath)) ∧
  (∀ nodes err,
     Promise.run (Promise.mkPromise (node:=nat) None
         (Promise.Sent (Promise.mkSolution (Some [1; 2]) (Some errNoPath))))
       = Promise.Returns (nodes, err) →
     nodes = None ∨ err = None).
Proof.
  exact (result_without_steps
           (Promise.mkPromise (node:=nat) None
              (Promise.Sent (Promise.mkSolution (Some [1; 2]) (Some errNoPath))))).
Defined.

(** ** Goal translation without world-rooted chains *)

Section TranslateMore.
Import RefFrame Chain Chains.
Context {Pose : Type}.

Lemma translate_loop_no_transform
    (T T' : FrameSystem → FrameSystemInputs → PoseInFrame Pose → string →
            error + PoseInFrame Pose)
    chains fs start goalPoses alteredGoals :
  (∀ c, c ∈ chains → worldRooted c = false) →
  ∀ σ : gmap nat (gmap string (PoseInFrame Pose)),
  translate_loop T chains fs start goalPoses alteredGoals σ
    = translate_loop T' chains fs start goalPoses alteredGoals σ ∧
  (translate_loop T chains fs start goalPoses alteredGoals σ).2 = None.
Proof.
  induction chains as [|c chains IH]; intros Hwr σ; simpl; [done|].
  assert (Hrest : ∀ c', c' ∈ chains → worldRooted c' = false)
    by (intros c' Hc'; apply Hwr; by right).
  rewrite (Hwr c) by left.
  destruct (σ !! goalPoses ≫= _); by apply IH.
Qed.

End TranslateMore.

(** X19. When no chain is world-rooted, [translateGoalsToWorldPosition]
    never calls the transform of the frame system and never fails: with
    any two transform functions it gives the same store and the same
    result, and the result is a goal. *)
Theorem translateGoalsToWorldPosition_no_transform {Pose : Type}
    (T T' : RefFrame.FrameSystem → FrameSystemInputs →
            Chains.PoseInFrame Pose → string → error + Chains.PoseInFrame Pose)
    (mC : Chains.motionChains) (fs : RefFrame.FrameSystem)
    (start : FrameSystemInputs) (goal : Chains.PlanState)
    (σ : gmap nat (gmap string (Chains.PoseInFrame Pose))) :
  (∀ c, c ∈ Chains.inner mC → Chain.worldRooted c = false) →
  Chains.translateGoalsToWorldPosition T mC fs start goal σ
    = Chains.translateGoalsToWorldPosition T' mC fs start goal σ ∧
  ∃ goal', (Chains.translateGoalsToWorldPosition T mC fs start goal σ).2 = inr goal'.
Proof.
  intros Hwr. unfold Chains.translateGoalsToWorldPosition.
  destruct (Chains.poses goal) as [goalPoses|]; [|split; [done|by eexists]].
  destruct (translate_loop_no_transform T T' (Chains.inner mC) fs start goalPoses
              (fresh (dom σ)) Hwr (<[fresh (dom σ) := ∅]> σ)) as [Heq Hnone].
  rewrite <- Heq.
  destruct (Chains.translate_loop T _ _ _ _ _ _) as [σ2 r]. simpl in Hnone.
  subst r. split; [done|by eexists].
Qed.

Lemma translateGoalsToWorldPosition_no_transform_witness :
  Chains.translateGoalsToWorldPosition Samples.shift Samples.wristFromCamera
    Samples.robot ∅ Samples.gripperGoal Samples.wristStore
  = Chains.translateGoalsToWorldPosition Samples.noTransform Samples.wristFromCamera
      Samples.robot ∅ Samples.gripperGoal Samples.wristStore ∧
  ∃ goal', (Chains.translateGoalsToWorldPosition Samples.shift Samples.wristFromCamera
              Samples.robot ∅ Samples.gripperGoal Samples.wristStore).2 = inr goal'.
Proof.
  apply (translateGoalsToWorldPosition_no_transform Samples.shift Samples.noTransform
           Samples.wristFromCamera Samples.robot ∅ Samples.gripperGoal Samples.wristStore).
  intros c Hc.
  assert (Hall : Forall (λ c, Chain.worldRooted c = false)
                   (Chains.inner Samples.wristFromCamera)).
  { apply (bool_decide_unpack _). vm_compute. exact I. }
  rewrite Forall_forall in Hall. by apply Hall.
Defined.

(** ** Building the chains of ordinary goals *)

Section OrdinaryGoals.
Import RefFrame Chain Chains.
Context (fs : FrameSystem) (Hwf : treeStructured fs) (Hroot : parentsLeadToRoot fs).

Lemma motionChainFromGoal_frames_inFS moveFrame goalFrameName chain :
  motionChainFromGoal fs moveFrame goalFrameName = inr chain →
  Forall (inFS fs) (frames chain).
Proof.
  intros Hrun.
  destruct (motionChainFromGoal_cases fs Hwf _ _ _ Hrun)
    as (solveFrame & goalFrame & p & pre1 & pre2 & suf & Hs & Hg & H1 & H2 &
        _ & _ & _ & _ & Hbuilt).
  pose proof (traceback_inFS fs Hwf _ _ _ (frameByName_inFS fs Hwf _ _ Hs) H1) as Hall1.
  pose proof (traceback_inFS fs Hwf _ _ _ (frameByName_inFS fs Hwf _ _ Hg) H2) as Hall2.
  destruct Hbuilt as [(_ & _ & -> & _)|[(_ & _ & _ & -> & _)|(_ & _ & _ & -> & _)]].
  - rewrite uniqInPlaceSlice_firstOccurrences.
    eapply Forall_sublist; [apply firstOccurrences_sublist|].
    by apply Forall_app.
  - done.
  - apply Forall_app in Hall1 as [? _]. apply Forall_app in Hall2 as [? _].
    by apply Forall_app.
Qed.

Lemma chainsFromGoals_total (goals : list (string * string)) :
  Forall (λ g, is_Some (frameByName fs g.1) ∧ is_Some (frameByName fs g.2)) goals →
  ∃ chains, chainsFromGoals fs goals = inr chains ∧
            solveFrameName <$> chains = goals.*1 ∧
            goalFrameName <$> chains = goals.*2 ∧
            Forall (λ c, Forall (inFS fs) (frames c)) chains.
Proof.
  induction goals as [|[frame goalFrame] goals IH]; intros Hall; simpl.
  - exists []. by repeat split.
  - apply Forall_cons in Hall as [[[sf Hsf] [gf Hgf]] Hall]. simpl in *.
    destruct (motionChainFromGoal_builds fs frame goalFrame sf gf Hwf Hroot Hgf Hsf)
      as (chain & Hchain & Hsn & Hgn).
    destruct (IH Hall) as (chains & Hchains & Hs & Hg & Hfr).
    rewrite Hchain, Hchains. simpl. exists (chain :: chains).
    split; [done|]. rewrite !fmap_cons, Hs, Hg, Hsn, Hgn.
    split; [done|]. split; [done|]. constructor; [|done].
    by eapply motionChainFromGoal_frames_inFS.
Qed.

End OrdinaryGoals.

(** X20. In a tree-structured frame system without PTG frames, in which
    the parents of every frame lead to the root, [motionChainsFromPlanState]
    succeeds for any goals, at least one, whose frames all exist: it
    returns one chain per goal, those of the pose goals first, in the
    order the goals were met, each with the frame of the goal as solve
    frame and with the parent of the pose, or the frame itself for a
    configuration goal, as goal frame; [useTPspace] is false. *)
Theorem motionChainsFromPlanState_ordinary {Pose : Type}
    (fs : RefFrame.FrameSystem)
    (posesRange : list (string * Chains.PoseInFrame Pose))
    (configurationRange : list (string * list Input)) :
  RefFrame.treeStructured fs → parentsLeadToRoot fs →
  Forall (λ f, isPTGProvider f = false) (RefFrame.allFrames fs) →
  Forall (λ e, is_Some (RefFrame.frameByName fs e.1) ∧
               is_Some (RefFrame.frameByName fs (Chains.parent e.2))) posesRange →
  Forall (λ e, is_Some (RefFrame.frameByName fs e.1)) configurationRange →
  0 < length posesRange + length configurationRange →
  ∃ mC, Chains.motionChainsFromPlanState fs posesRange configurationRange = inr mC ∧
        Chains.useTPspace mC = false ∧ Chains.ptgFrameName mC = "" ∧
        Chain.solveFrameName <$> Chains.inner mC
          = posesRange.*1 ++ configurationRange.*1 ∧
        Chain.goalFrameName <$> Chains.inner mC
          = (Chains.parent <$> posesRange.*2) ++ configurationRange.*1.
Proof.
  intros Hwf Hroot Hptg Hposes Hconf Hlen.
  unfold Chains.motionChainsFromPlanState.
  destruct (chainsFromGoals_total fs Hwf Hroot
              ((λ e, (e.1, Chains.parent e.2)) <$> posesRange))
    as (pc & Hpc & Hps & Hpg & Hpf).
  { apply Forall_fmap. eapply Forall_impl; [exact Hposes|]. by intros [n pif]. }
  destruct (chainsFromGoals_total fs Hwf Hroot
              ((λ e, (e.1, e.1)) <$> configurationRange))
    as (cc & Hcc & Hcs & Hcg & Hcf).
  { apply Forall_fmap. eapply Forall_impl; [exact Hconf|]. by intros [n c]. }
  rewrite Hpc, Hcc. simpl.
  assert (Hno : ∀ chain, chain ∈ pc ++ cc → noPTG (Chain.frames chain)).
  { intros chain Hin f Hf.
    assert (Hall : Forall (inFS fs) (Chain.frames chain)).
    { rewrite Forall_forall in Hpf, Hcf.
      apply elem_of_app in Hin as [Hin|Hin]; auto. }
    rewrite Forall_forall in Hall, Hptg. apply Hptg.
    by apply (inFS_allFrames fs), Hall. }
  unfold Chains.checkInner.
  assert (Hlen' : length (pc ++ cc) = length posesRange + length configurationRange).
  { rewrite length_app.
    rewrite <- (length_fmap Chain.solveFrameName pc), Hps.
    rewrite <- (length_fmap Chain.solveFrameName cc), Hcs.
    by rewrite !length_fmap. }
  rewrite decide_False by lia.
  rewrite checkChains_ordinary by done. simpl.
  eexists. split; [done|]. simpl. split; [done|]. split; [done|].
  rewrite !fmap_app, Hps, Hpg, Hcs, Hcg.
  rewrite <- !list_fmap_compose. done.
Qed.

Lemma motionChainsFromPlanState_ordinary_witness :
  ∃ mC, Chains.motionChainsFromPlanState Samples.robot
          [("gripper", Chains.mkPIF "camera" 5)] [("wrist", [mkInput 0%float])] = inr mC ∧
        Chains.useTPspace mC = false ∧ Chains.ptgFrameName mC = "" ∧
        Chain.solveFrameName <$> Chains.inner mC
          = [("gripper", Chains.mkPIF "camera" 5)].*1 ++ [("wrist", [mkInput 0%float])].*1 ∧
        Chain.goalFrameName <$> Chains.inner mC
          = (Chains.parent <$> [("gripper", Chains.mkPIF "camera" 5)].*2)
            ++ [("wrist", [mkInput 0%float])].*1.
Proof.
  apply (motionChainsFromPlanState_ordinary Samples.robot
           [("gripper", Chains.mkPIF "camera" 5)] [("wrist", [mkInput 0%float])]).
  - apply (bool_decide_unpack _). vm_compute. exact I.
  - apply (bool_decide_unpack _). vm_compute. exact I.
  - apply (bool_decide_unpack _). vm_compute. exact I.
  - repeat constructor; vm_compute; eexists; reflexivity.
  - repeat constructor; vm_compute; eexists; reflexivity.
  - simpl. lia.
Defined.

(** ** The errors of the check for PTG frames *)

Section CheckErrors.
Import Chain Chains.

Lemma checkFrames_inl n fr : ∀ useTP name wr e,
  checkFrames n fr useTP name wr = inl e →
  (e = errMixedFrameTypes ∨ (e = errOnlyOnePTG ∧ ¬ 1 < n)) ∨
  (useTP = true ∧ e = errOnlyOnePTG).
Proof.
  induction fr as [|a fr IH]; intros useTP name wr e Hrun; simpl in Hrun; [done|].
  destruct (isPTGProvider a).
  - destruct useTP; [simplify_eq; by right|].
    destruct (decide (1 < n)); [simplify_eq; left; by left|].
    apply IH in Hrun as [[->|[-> _]]|[_ ->]]; left; auto.
  - destruct (decide (0 < length (DoF a))).
    + destruct useTP; [simplify_eq; left; by left|]. by apply IH in Hrun.
    + by apply IH in Hrun.
Qed.

Lemma checkChains_inl n chains : ∀ useTP name e,
  checkChains n chains useTP name = inl e →
  (e = errMixedFrameTypes ∨ (e = errOnlyOnePTG ∧ ¬ 1 < n)) ∨
  (useTP = true ∧ e = errOnlyOnePTG).
Proof.
  induction chains as [|c chains IH]; intros useTP name e Hrun; simpl in Hrun; [done|].
  destruct (checkFrames n (frames c) useTP name (worldRooted c))
    as [e'|[[u1 n1] w1]] eqn:Hc.
  - simpl in Hrun. simplify_eq. by eapply checkFrames_inl.
  - simpl in Hrun.
    destruct (checkChains n chains u1 n1) as [e'|[[rest' u2] n2]] eqn:Hrest; [|done].
    simpl in Hrun. simplify_eq.
    apply IH in Hrest as [?|[-> ->]]; [by left|].
    apply checkFrames_inr in Hc as [(-> & _)|(_ & _ & _ & Hn & _)]; [by right|].
    left. by right.
Qed.

End CheckErrors.

(** X21. The check at the end of [motionChainsFromPlanState] fails in
    three ways only: without chains, with the error that there must be
    at least one motion chain; with two chains or more, always with the
    mixed-frame-types error; with one chain, with the mixed-frame-types
    error or with the error that only one PTG frame can be planned for. *)
Theorem checkInner_errors (inner : list Chain.motionChain) (e : error) :
  Chains.checkInner inner = inl e →
  (inner = [] ∧ e = errNoChains) ∨
  (1 < length inner ∧ e = errMixedFrameTypes) ∨
  (length inner = 1 ∧ (e = errMixedFrameTypes ∨ e = errOnlyOnePTG)).
Proof.
  unfold Chains.checkInner. intros Hrun.
  destruct (decide (length inner < 1)) as [Hlen|Hlen].
  - left. simplify_eq. split; [|done]. destruct inner; [done|simpl in Hlen; lia].
  - right.
    destruct (Chains.checkChains _ _ _ _) as [e'|[[inner' u] name]] eqn:Hcheck;
      [|done].
    simpl in Hrun. simplify_eq.
    apply checkChains_inl in Hcheck as [[->|[-> Hn]]|[? _]]; [| |done].
    + destruct (decide (1 < length inner)); [by left|]. right.
      split; [lia|by left].
    + right. split; [lia|by right].
Qed.

Lemma checkInner_errors_witness :
  ([Samples.trailerChain] = [] ∧ errOnlyOnePTG = errNoChains) ∨
  (1 < length [Samples.trailerChain] ∧ errOnlyOnePTG = errMixedFrameTypes) ∨
  (length [Samples.trailerChain] = 1 ∧
   (errOnlyOnePTG = errMixedFrameTypes ∨ errOnlyOnePTG = errOnlyOnePTG)).
Proof.
  apply (checkInner_errors [Samples.trailerChain] errOnlyOnePTG).
  vm_compute. reflexivity.
Defined.

(** ** Goals on frames that the system does not have *)

Section MissingGoals.
Import RefFrame Chain Chains.
Context (fs : FrameSystem) (Hwf : treeStructured fs) (Hroot : parentsLeadToRoot fs).

Lemma motionChainFromGoal_missing moveFrame goalFrameName :
  frameByName fs goalFrameName = None ∨ frameByName fs moveFrame = None →
  motionChainFromGoal fs moveFrame goalFrameName =
    inl (errFrameMissing
           (if decide (frameByName fs goalFrameName = None)
            then goalFrameName else moveFrame)).
Proof.
  intros Hmiss. unfold motionChainFromGoal.
  destruct (frameByName fs goalFrameName) as [goalFrame|] eqn:Hg.
  - rewrite decide_False by done. destruct Hmiss as [?|Hs]; [done|]. rewrite Hs.
    destruct (TracebackFrame_found fs Hwf Hroot _ _ Hg) as [goalList ->]. done.
  - by rewrite decide_True.
Qed.

Lemma chainsFromGoals_first_missing pre frame goalFrame rest :
  Forall (λ g, is_Some (frameByName fs g.1) ∧ is_Some (frameByName fs g.2)) pre →
  frameByName fs goalFrame = None ∨ frameByName fs frame = None →
  chainsFromGoals fs (pre ++ (frame, goalFrame) :: rest) =
    inl (errFrameMissing
           (if decide (frameByName fs goalFrame = None) then goalFrame else frame)).
Proof.
  induction pre as [|[f g] pre IH]; intros Hpre Hmiss; simpl.
  - by rewrite motionChainFromGoal_missing.
  - apply Forall_cons in Hpre as [[[sf Hsf] [gf Hgf]] Hpre]. simpl in *.
    destruct (motionChainFromGoal_builds fs f g sf gf Hwf Hroot Hgf Hsf)
      as (chain & -> & _).
    simpl. by rewrite IH.
Qed.

End MissingGoals.

(** X22. In a tree-structured frame system in which the parents of every
    frame lead to the root, [motionChainsFromPlanState] fails with the
    frame missing error at the first pose goal, in the order the goals
    are met, of which a frame is not in the system, before any
    configuration goal is looked at and before the check for PTG frames;
    the error is for the parent frame of the pose when that is missing,
    and for the frame of the goal otherwise. *)
Theorem motionChainsFromPlanState_first_missing {Pose : Type}
    (fs : RefFrame.FrameSystem)
    (pre : list (string * Chains.PoseInFrame Pose))
    (frame : string) (pif : Chains.PoseInFrame Pose)
    (rest : list (string * Chains.PoseInFrame Pose))
    (configurationRange : list (string * list Input)) :
  RefFrame.treeStructured fs → parentsLeadToRoot fs →
  Forall (λ e, is_Some (RefFrame.frameByName fs e.1) ∧
               is_Some (RefFrame.frameByName fs (Chains.parent e.2))) pre →
  RefFrame.frameByName fs (Chains.parent pif) = None ∨
  RefFrame.frameByName fs frame = None →
  Chains.motionChainsFromPlanState fs (pre ++ (frame, pif) :: rest) configurationRange
    = inl (errFrameMissing
             (if decide (RefFrame.frameByName fs (Chains.parent pif) = None)
              then Chains.parent pif else frame)).
Proof.
  intros Hwf Hroot Hpre Hmiss. unfold Chains.motionChainsFromPlanState.
  rewrite fmap_app, fmap_cons. simpl.
  rewrite (chainsFromGoals_first_missing fs Hwf Hroot); [done| |done].
  apply Forall_fmap. eapply Forall_impl; [exact Hpre|]. by intros [n p].
Qed.

Lemma motionChainsFromPlanState_first_missing_witness :
  Chains.motionChainsFromPlanState Samples.robot
    ([("gripper", Chains.mkPIF "camera" 5)] ++ ("wrist", Chains.mkPIF "lamp" 1) :: [])
    [("nowhere", [])]
  = inl (errFrameMissing
           (if decide (RefFrame.frameByName Samples.robot
                         (Chains.parent (Chains.mkPIF "lamp" 1)) = None)
            then Chains.parent (Chains.mkPIF "lamp" 1) else "wrist")).
Proof.
  apply (motionChainsFromPlanState_first_missing Samples.robot
           [("gripper", Chains.mkPIF "camera" 5)] "wrist" (Chains.mkPIF "lamp" 1) []
           [("nowhere", [])]).
  - apply (bool_decide_unpack _). vm_compute. exact I.
  - apply (bool_decide_unpack _). vm_compute. exact I.
  - repeat constructor; vm_compute; eexists; reflexivity.
  - left. vm_compute. reflexivity.
Defined.

(** ** The names of the collector methods *)

(** X23. [method.String] gives each of the three methods its own name,
    none of them "Unknown", and every other value the name "Unknown":
    two values with the same name other than "Unknown" are the same
    method. *)
Theorem method_String_names (m m' : ArmMethod.method) :
  (ArmMethod.String m = "Unknown" ↔
     m ≠ ArmMethod.endPosition ∧ m ≠ ArmMethod.jointPositions ∧
     m ≠ ArmMethod.doCommand) ∧
  (ArmMethod.String m = ArmMethod.String m' →
   ArmMethod.String m ≠ "Unknown" → m = m').
Proof.
  unfold ArmMethod.String. split.
  - repeat case_decide; split; intros Hm; try done;
      destruct Hm as (? & ? & ?); done.
  - repeat case_decide; intros Heq Hne; try done; congruence.
Qed.
